(** * search_knowledge.py: context snippets around the first match of each term

    A shallow embedding of [scripts/search_knowledge.py].  The script reads
    one text file, looks up each of five literal terms with [str.find],
    cuts a window of 500 characters before and 1500 characters after the
    first match, formats one block per matching term and writes the blocks,
    joined by a newline, to [search_results.txt].

    - A Python [str] is a sequence of Unicode code points: [pystr] is
      [list N]; indices and lengths are [Z], as [str.find] answers [-1].
    - A file holds bytes.  Text-mode reading decodes UTF-8 strictly and
      applies universal newlines; text-mode writing translates the newline
      to the platform's line separator and encodes UTF-8.
    - The two [with open(...)] statements run in a state and error monad
      over the file store. *)

From Stdlib Require Import ZArith NArith Lia Ascii String.
From stdpp Require Import gmap strings list fin_maps.

Local Open Scope Z_scope.

(** ** Python strings *)

Module Py.

(** A character is its code point. *)
Definition char := N.
Abbreviation pystr := (list char).

(** An ASCII literal of the source, as a Python string. *)
Definition lit (s : string) : pystr :=
  map N_of_ascii (list_ascii_of_string s).

(** [len(s)]. *)
Definition len (s : pystr) : Z := Z.of_nat (length s).

(** [s * n] on the right of a string: [n] copies of [s]. *)
Fixpoint repeat_str (s : pystr) (n : nat) : pystr :=
  match n with
  | O => []
  | S n' => s ++ repeat_str s n'
  end.

(** [s.startswith(p)]: [p] is read off the front of [s]. *)
Fixpoint startswith (s p : pystr) {struct p} : bool :=
  match p, s with
  | [], _ => true
  | _ :: _, [] => false
  | x :: p', c :: s' => N.eqb c x && startswith s' p'
  end.

(** The scan of [str.find]: [i] is the offset of [s] in the whole string.
    The candidate offsets are tried from the lowest up; the empty string is
    found at the end of the string too. *)
Fixpoint find_from (i : Z) (s sub : pystr) : Z :=
  if startswith s sub then i
  else match s with
       | [] => -1
       | _ :: s' => find_from (i + 1) s' sub
       end.

(** [s.find(sub)]. *)
Definition find (s sub : pystr) : Z := find_from 0 s sub.

(** A slice bound adjusted as CPython does: a negative bound counts from the
    end, and the result is clamped to [0 .. len]. *)
Definition adjust (n i : Z) : Z :=
  if i <? 0 then Z.max 0 (i + n) else Z.min i n.

(** [s[start:stop]]. *)
Definition slice (s : pystr) (start stop : Z) : pystr :=
  let lo := adjust (len s) start in
  let hi := adjust (len s) stop in
  take (Z.to_nat (hi - lo)) (drop (Z.to_nat lo) s).

(** [sep.join(parts)]. *)
Fixpoint join (sep : pystr) (parts : list pystr) : pystr :=
  match parts with
  | [] => []
  | [p] => p
  | p :: rest => p ++ sep ++ join sep rest
  end.

End Py.

Import Py.

(** ** The search loop (lines 11 to 20) *)

(** [search_terms], line 11, as code points:
    유 C720, 통 D1B5, 소 C18C, 비 BE44, 기 AE30, 한 D55C, 잔 C794, 여 C5EC. *)
Definition search_terms : list pystr :=
  [ [0xC720; 0xD1B5; 0x28; 0xC18C; 0xBE44; 0x29; 0xAE30; 0xD55C]%N;
    [0xC18C; 0xBE44; 0xAE30; 0xD55C]%N;
    lit "50%";
    lit "40%";
    [0xC794; 0xC5EC]%N ].

(** The newline character. *)
Definition nl : pystr := [10%N].

(** The first line of a block: [--- Match for '{term}' ---]. *)
Definition header (term : pystr) : pystr :=
  lit "--- Match for '" ++ term ++ lit "' ---".

(** The f-string of line 20. *)
Definition fmt (term snippet : pystr) : pystr :=
  header term ++ nl ++ snippet ++ nl.

(** Lines 18 and 19. *)
Definition window_start (index : Z) : Z := Z.max 0 (index - 500).
Definition window_end (content : pystr) (index : Z) : Z :=
  Z.min (len content) (index + 1500).

(** The snippet of line 20: [content[start:end]]. *)
Definition snippet_at (content : pystr) (index : Z) : pystr :=
  slice content (window_start index) (window_end content index).

(** One turn of the loop, lines 15 to 20, on the list [results]. *)
Definition loop_body (content : pystr) (results : list pystr) (term : pystr)
  : list pystr :=
  let index := find content term in
  if negb (index =? -1) then
    let start := Z.max 0 (index - 500) in
    let end_ := Z.min (len content) (index + 1500) in
    results ++ [fmt term (slice content start end_)]
  else results.

(** Lines 13 to 20: [results] after the loop over [terms]. *)
Definition search (content : pystr) (terms : list pystr) : list pystr :=
  fold_left (loop_body content) terms [].

(** The string handed to [f.write] on line 23. *)
Definition report (content : pystr) (terms : list pystr) : pystr :=
  join nl (search content terms).

(** ** Text files (lines 6, 7, 22 and 23) *)

Module Codec.

(** A byte of a file. *)
Definition byte := Byte.byte.

Definition octet (n : N) : byte :=
  match Byte.of_N (n mod 256) with
  | Some b => b
  | None => Byte.x00
  end.

(** A continuation byte, [10xxxxxx]. *)
Definition is_cont (b : byte) : bool :=
  let n := Byte.to_N b in ((0x80 <=? n) && (n <? 0xC0))%N.

(** The six payload bits of a continuation byte. *)
Definition low6 (b : byte) : N := (Byte.to_N b mod 64)%N.

(** A decoded value is kept when it is no overlong form (at least [lo]),
    no surrogate and at most U+10FFFF. *)
Definition scalar_from (lo cp : N) : bool :=
  ((lo <=? cp) && (cp <=? 0x10FFFF) && negb ((0xD800 <=? cp) && (cp <=? 0xDFFF)))%N.

(** [bytes.decode('utf-8')], strict: [None] is [UnicodeDecodeError]. *)
Fixpoint utf8_decode (bs : list byte) : option pystr :=
  match bs with
  | [] => Some []
  | b :: r =>
    let n := Byte.to_N b in
    if (n <? 0x80)%N then cons n <$> utf8_decode r
    else if ((0xC0 <=? n) && (n <? 0xE0))%N then
      match r with
      | b1 :: r1 =>
        let cp := ((n mod 32) * 64 + low6 b1)%N in
        if is_cont b1 && scalar_from 0x80 cp
        then cons cp <$> utf8_decode r1 else None
      | _ => None
      end
    else if ((0xE0 <=? n) && (n <? 0xF0))%N then
      match r with
      | b1 :: b2 :: r2 =>
        let cp := (((n mod 16) * 64 + low6 b1) * 64 + low6 b2)%N in
        if is_cont b1 && is_cont b2 && scalar_from 0x800 cp
        then cons cp <$> utf8_decode r2 else None
      | _ => None
      end
    else if ((0xF0 <=? n) && (n <? 0xF8))%N then
      match r with
      | b1 :: b2 :: b3 :: r3 =>
        let cp := ((((n mod 8) * 64 + low6 b1) * 64 + low6 b2) * 64 + low6 b3)%N in
        if is_cont b1 && is_cont b2 && is_cont b3 && scalar_from 0x10000 cp
        then cons cp <$> utf8_decode r3 else None
      | _ => None
      end
    else None
  end.

(** The UTF-8 form of one character; a surrogate has none. *)
Definition utf8_char (cp : char) : option (list byte) :=
  if (cp <? 0x80)%N then Some [octet cp]
  else if (cp <? 0x800)%N then
    Some [octet (0xC0 + cp / 64); octet (0x80 + cp mod 64)]
  else if (cp <? 0x10000)%N then
    if ((0xD800 <=? cp) && (cp <=? 0xDFFF))%N then None
    else Some [octet (0xE0 + cp / 4096); octet (0x80 + (cp / 64) mod 64);
               octet (0x80 + cp mod 64)]
  else if (cp <=? 0x10FFFF)%N then
    Some [octet (0xF0 + cp / 262144); octet (0x80 + (cp / 4096) mod 64);
          octet (0x80 + (cp / 64) mod 64); octet (0x80 + cp mod 64)]
  else None.

(** [str.encode('utf-8')], strict: [None] is [UnicodeEncodeError]. *)
Fixpoint utf8_encode (s : pystr) : option (list byte) :=
  match s with
  | [] => Some []
  | c :: s' =>
    match utf8_char c, utf8_encode s' with
    | Some bs, Some rest => Some (bs ++ rest)
    | _, _ => None
    end
  end.

(** Reading with [newline=None]: [\r\n] and a lone [\r] become [\n]. *)
Fixpoint universal_newlines (s : pystr) : pystr :=
  match s with
  | [] => []
  | c :: r =>
    if (c =? 13)%N then
      match r with
      | c' :: r' =>
        if (c' =? 10)%N then 10%N :: universal_newlines r'
        else 10%N :: universal_newlines r
      | [] => [10%N]
      end
    else c :: universal_newlines r
  end.

(** Writing with [newline=None]: every [\n] becomes [os.linesep]. *)
Definition translate_newlines (linesep s : pystr) : pystr :=
  flat_map (fun c => if (c =? 10)%N then linesep else [c]) s.

End Codec.

Import Codec.

(** The exceptions the two [open] statements and their bodies can raise. *)
Inductive exn : Type :=
  | FileNotFoundError
  | PermissionError
  | UnicodeDecodeError
  | UnicodeEncodeError.

(** A regular file: its permission bits for this process and its bytes. *)
Record file : Type := File {
  readable : bool;
  writable : bool;
  data : list byte
}.

(** What the process sees of its host: the files by path, whether a file
    can be created in the working directory, and [os.linesep].  A path
    names one file; two different paths name different files. *)
Record world : Type := World {
  files : gmap string file;
  cwd_writable : bool;
  linesep : pystr
}.

Definition set_file (path : string) (f : file) (w : world) : world :=
  World (<[path := f]> (files w)) (cwd_writable w) (linesep w).

(** A statement either raises or yields a value, and leaves a world. *)
Definition IO (A : Type) : Type := world -> (exn + A) * world.

Definition raise {A} (e : exn) : IO A := fun w => (inl e, w).

#[global] Instance io_ret : MRet IO := fun A a w => (inr a, w).

#[global] Instance io_bind : MBind IO := fun A B k m w =>
  match m w with
  | (inl e, w') => (inl e, w')
  | (inr a, w') => k a w'
  end.

(** [with open(path, 'r', encoding='utf-8') as f: f.read()]. *)
Definition read_text (path : string) : IO pystr :=
  fun w =>
    match files w !! path with
    | None => (inl FileNotFoundError, w)
    | Some f =>
      if readable f then
        match utf8_decode (data f) with
        | Some s => (inr (universal_newlines s), w)
        | None => (inl UnicodeDecodeError, w)
        end
      else (inl PermissionError, w)
    end.

(** [open(path, 'w', encoding='utf-8')]: the file is created when it is
    missing and emptied when it is there. *)
Definition open_w (path : string) : IO file :=
  fun w =>
    match files w !! path with
    | None =>
      if cwd_writable w then
        let f := File true true [] in (inr f, set_file path f w)
      else (inl PermissionError, w)
    | Some f =>
      if writable f then
        let f' := File (readable f) (writable f) [] in
        (inr f', set_file path f' w)
      else (inl PermissionError, w)
    end.

(** [f.write(text)] and the close at the end of the [with] block. *)
Definition write (path : string) (f : file) (text : pystr) : IO unit :=
  fun w =>
    match utf8_encode (translate_newlines (linesep w) text) with
    | Some bs => (inr tt, set_file path (File (readable f) (writable f) bs) w)
    | None => (inl UnicodeEncodeError, w)
    end.

(** Line 4. *)
Definition file_path : string :=
  "c:\Users\JEONG\.gemini\antigravity\scratch\No-More-Coupang-Return\src\data\knowledge.ts".

(** The path of line 22. *)
Definition out_path : string := "search_results.txt".

(** The script, top to bottom. *)
Definition main : IO unit :=
  content ← read_text file_path;
  let results := search content search_terms in
  f ← open_w out_path;
  write out_path f (join nl results).

(** ** Occurrences of a term *)

(** [sub] occurs in [s] at offset [i]: [s[i : i + len(sub)] == sub]. *)
Definition occurs_at (s sub : pystr) (i : Z) : Prop :=
  ∃ pre post, s = pre ++ sub ++ post ∧ len pre = i.

(** [sub in s]. *)
Definition occurs (s sub : pystr) : Prop := ∃ i, occurs_at s sub i.

(** The blocks of [results] whose first line is the header of [term]. *)
Definition blocks_for (term : pystr) (results : list pystr) : list pystr :=
  List.filter (fun b => startswith b (header term ++ nl)) results.

(** The block the loop appends for a matching term. *)
Definition block_of (content term : pystr) : pystr :=
  fmt term (snippet_at content (find content term)).

(** The apostrophe that closes the term in a header. *)
Definition quote : char := 39%N.

(** ** Sample inputs *)

(** The source text ["abc" + "50%" + "x"*2000] and its one term. *)
Definition scenario_term : pystr := lit "50%".
Definition scenario_content : pystr :=
  lit "abc" ++ lit "50%" ++ repeat_str (lit "x") 2000.

(** The bytes of a text that has a UTF-8 form. *)
Definition bytes_of (text : pystr) : list byte :=
  default [] (utf8_encode text).

(** A host with the source file holding [text] and no report yet. *)
Definition world_with (text : pystr) : world :=
  World {[ file_path := File true true (bytes_of text) ]} true nl.

(** A host without the source file, with an earlier report in place. *)
Definition world_without_source : world :=
  World {[ out_path := File true true (bytes_of (lit "old report")) ]} true nl.

(** ** Characters that have a UTF-8 form, and the line separators *)

(** A Unicode scalar value: at most U+10FFFF and no surrogate. *)
Definition scalar (c : char) : bool := scalar_from 0 c.

(** The values [os.linesep] takes: ["\n"] on POSIX, ["\r\n"] on Windows. *)
Definition os_linesep (sep : pystr) : Prop :=
  sep = [10%N] ∨ sep = [13%N; 10%N].

(** The most a term can add to the report: its header of [20 + len(term)]
    characters, two newlines, a snippet of 2000 and one separator. *)
Definition budget (terms : list pystr) : Z :=
  foldr (fun term acc => len term + 2023 + acc) 0 terms.

(** A Windows host with the source file holding [text]. *)
Definition windows_world_with (text : pystr) : world :=
  World {[ file_path := File true true (bytes_of text) ]} true [13%N; 10%N].

(** A host whose earlier report is read-only. *)
Definition world_with_locked_report (text : pystr) : world :=
  World (<[ out_path := File true false (bytes_of (lit "old report")) ]>
           {[ file_path := File true true (bytes_of text) ]}) true nl.

Section Strings.

Implicit Types s sub p pre post : pystr.

Lemma len_nonneg s : 0 ≤ len s.
Proof. unfold len. lia. Qed.

Lemma len_app s1 s2 : len (s1 ++ s2) = len s1 + len s2.
Proof. unfold len. rewrite length_app. lia. Qed.

Lemma len_nil_inv s : len s = 0 → s = [].
Proof. destruct s; [done | unfold len; simpl; lia]. Qed.

Lemma startswith_spec s p : startswith s p = true ↔ ∃ post, s = p ++ post.
Proof.
  revert s. induction p as [| x p IH]; intros s; simpl.
  - split; [eauto | done].
  - destruct s as [| c s].
    + split; [intros ? | intros [post H]]; discriminate.
    + rewrite andb_true_iff, N.eqb_eq, IH. split.
      * intros [-> [post ->]]. eauto.
      * intros [post H]. injection H as -> ->. eauto.
Qed.

Lemma occurs_at_range s sub i :
  occurs_at s sub i → 0 ≤ i ∧ i + len sub ≤ len s.
Proof.
  intros (pre & post & -> & <-). rewrite !len_app.
  pose proof (len_nonneg pre). pose proof (len_nonneg post). lia.
Qed.

Lemma occurs_at_0 s sub : occurs_at s sub 0 ↔ startswith s sub = true.
Proof.
  rewrite startswith_spec. split.
  - intros (pre & post & -> & Hpre). apply len_nil_inv in Hpre as ->. eauto.
  - intros [post ->]. by exists [], post.
Qed.

Lemma occurs_at_succ c s sub i :
  0 ≤ i → occurs_at (c :: s) sub (i + 1) ↔ occurs_at s sub i.
Proof.
  intros Hi. split.
  - intros (pre & post & Hs & Hpre). destruct pre as [| c' pre].
    + unfold len in Hpre. simpl in Hpre. lia.
    + injection Hs as -> ->. exists pre, post. split; [done |].
      unfold len in *. simpl in Hpre. lia.
  - intros (pre & post & -> & <-). exists (c :: pre), post. split; [done |].
    unfold len. simpl. lia.
Qed.

(** [find_from] answers [-1] when there is no occurrence, and otherwise the
    least offset of one, counted from [k]. *)
Lemma find_from_spec k s sub :
  (find_from k s sub = -1 ∧ ∀ i, ¬ occurs_at s sub i) ∨
  (∃ i, find_from k s sub = k + i ∧ occurs_at s sub i ∧
        ∀ j, occurs_at s sub j → i ≤ j).
Proof.
  revert k. induction s as [| c s IH]; intros k; simpl.
  - destruct (startswith [] sub) eqn:E.
    + right. exists 0. split; [lia |]. split; [by apply occurs_at_0 |].
      intros j Hj. apply occurs_at_range in Hj. lia.
    + left. split; [done |]. intros i Hi.
      pose proof (occurs_at_range _ _ _ Hi) as Hr.
      pose proof (len_nonneg sub). unfold len in Hr at 2. simpl in Hr.
      assert (i = 0) as -> by lia.
      apply occurs_at_0 in Hi. congruence.
  - destruct (startswith (c :: s) sub) eqn:E.
    + right. exists 0. split; [lia |]. split; [by apply occurs_at_0 |].
      intros j Hj. apply occurs_at_range in Hj. lia.
    + destruct (IH (k + 1)) as [[Hf Hno] | (i & Hf & Hi & Hmin)].
      * left. split; [done |]. intros i Hi.
        pose proof (occurs_at_range _ _ _ Hi) as [Hr _].
        destruct (decide (i = 0)) as [-> | Hne].
        -- apply occurs_at_0 in Hi. congruence.
        -- replace i with (i - 1 + 1) in Hi by lia.
           apply occurs_at_succ in Hi; [| lia]. by apply Hno in Hi.
      * right. exists (i + 1). split; [lia |].
        pose proof (occurs_at_range _ _ _ Hi) as [Hi0 _].
        split; [by apply occurs_at_succ |]. intros j Hj.
        pose proof (occurs_at_range _ _ _ Hj) as [Hr _].
        destruct (decide (j = 0)) as [-> | Hne].
        -- apply occurs_at_0 in Hj. congruence.
        -- replace j with (j - 1 + 1) in Hj by lia.
           apply occurs_at_succ in Hj; [| lia]. apply Hmin in Hj. lia.
Qed.

Lemma find_occurs s sub :
  occurs s sub →
  occurs_at s sub (find s sub) ∧ ∀ j, occurs_at s sub j → find s sub ≤ j.
Proof.
  intros [i0 Hi0]. unfold find.
  destruct (find_from_spec 0 s sub) as [[_ Hno] | (i & -> & Hi & Hmin)].
  - by apply Hno in Hi0.
  - by rewrite Z.add_0_l.
Qed.

Lemma find_absent s sub : ¬ occurs s sub → find s sub = -1.
Proof.
  intros Hno. unfold find.
  destruct (find_from_spec 0 s sub) as [[-> _] | (i & _ & Hi & _)]; [done |].
  destruct Hno. by exists i.
Qed.

Lemma find_found s sub : find s sub ≠ -1 ↔ occurs s sub.
Proof.
  split.
  - intros Hne. destruct (find_from_spec 0 s sub) as [[E _] | (i & _ & Hi & _)].
    + by destruct Hne.
    + by exists i.
  - intros Ho. apply find_occurs in Ho as [Ho _].
    apply occurs_at_range in Ho. lia.
Qed.

End Strings.

(** ** Slices and the context window *)

Section Window.

Implicit Types s content term : pystr.

(** With bounds in range the slice is the plain segment. *)
Lemma slice_in_range s lo hi :
  0 ≤ lo → lo ≤ hi → hi ≤ len s →
  slice s lo hi = take (Z.to_nat (hi - lo)) (drop (Z.to_nat lo) s).
Proof.
  intros H0 H1 H2. unfold slice, adjust.
  destruct (Z.ltb_spec lo 0); [lia |].
  destruct (Z.ltb_spec hi 0); [lia |].
  by rewrite !Z.min_l by lia.
Qed.

Lemma slice_len s lo hi :
  0 ≤ lo → lo ≤ hi → hi ≤ len s → len (slice s lo hi) = hi - lo.
Proof.
  intros H0 H1 H2. rewrite slice_in_range by done.
  unfold len in *. rewrite length_take, length_drop. lia.
Qed.

(** The segment sits in the string between what comes before [lo] and what
    comes after [hi]. *)
Lemma slice_split s lo hi :
  0 ≤ lo → lo ≤ hi → hi ≤ len s →
  s = take (Z.to_nat lo) s ++ slice s lo hi ++ drop (Z.to_nat hi) s.
Proof.
  intros H0 H1 H2. rewrite slice_in_range by done.
  rewrite <- (take_drop (Z.to_nat lo) s) at 1. f_equal.
  rewrite <- (take_drop (Z.to_nat (hi - lo)) (drop (Z.to_nat lo) s)) at 1.
  f_equal. rewrite drop_drop. f_equal. lia.
Qed.

Lemma window_bounds content i :
  0 ≤ i → i ≤ len content →
  0 ≤ window_start i ∧ window_start i ≤ i ∧ i ≤ window_end content i ∧
  window_end content i ≤ len content.
Proof. unfold window_start, window_end. lia. Qed.

Lemma window_width content i :
  window_end content i - window_start i ≤ 2000.
Proof. unfold window_start, window_end. lia. Qed.

Lemma snippet_len content i :
  0 ≤ i → i ≤ len content →
  len (snippet_at content i) = window_end content i - window_start i.
Proof.
  intros H0 H1. destruct (window_bounds content i H0 H1) as (? & ? & ? & ?).
  unfold snippet_at. apply slice_len; lia.
Qed.

(** An occurrence starts inside the string. *)
Lemma occurs_at_index content term i :
  occurs_at content term i → 0 ≤ i ∧ i ≤ len content.
Proof.
  intros H. apply occurs_at_range in H. pose proof (len_nonneg term). lia.
Qed.

End Window.

(** ** The shape of [results] *)

Section Search.

Implicit Types content term : pystr.
Implicit Types terms results : list pystr.

Lemma loop_body_found content results term :
  occurs content term →
  loop_body content results term = results ++ [block_of content term].
Proof.
  intros H. apply find_found in H. unfold loop_body.
  destruct (Z.eqb_spec (find content term) (-1)); [done |]. done.
Qed.

Lemma loop_body_absent content results term :
  ¬ occurs content term → loop_body content results term = results.
Proof.
  intros H. apply find_absent in H. unfold loop_body. by rewrite H.
Qed.

Lemma loop_body_acc content results term :
  loop_body content results term = results ++ loop_body content [] term.
Proof.
  unfold loop_body. destruct (negb _); [done | by rewrite app_nil_r].
Qed.

Lemma fold_loop_acc content terms results :
  fold_left (loop_body content) terms results
  = results ++ search content terms.
Proof.
  unfold search. revert results.
  induction terms as [| t terms IH]; intros results; simpl.
  - by rewrite app_nil_r.
  - rewrite IH, (IH (loop_body content [] t)), loop_body_acc.
    by rewrite app_assoc.
Qed.

Lemma search_cons content term terms :
  search content (term :: terms)
  = search content [term] ++ search content terms.
Proof. unfold search at 1. simpl. by rewrite fold_loop_acc. Qed.

Lemma search_app content terms1 terms2 :
  search content (terms1 ++ terms2)
  = search content terms1 ++ search content terms2.
Proof.
  induction terms1 as [| t terms1 IH]; [done |].
  rewrite <- app_comm_cons, search_cons, (search_cons _ t terms1), IH.
  by rewrite app_assoc.
Qed.

Lemma search_single_found content term :
  occurs content term → search content [term] = [block_of content term].
Proof. intros H. unfold search. simpl. by rewrite loop_body_found. Qed.

Lemma search_single_absent content term :
  ¬ occurs content term → search content [term] = [].
Proof. intros H. unfold search. simpl. by rewrite loop_body_absent. Qed.

(** Whether a term occurs is decided by [find]. *)
Lemma occurs_dec content term : {occurs content term} + {¬ occurs content term}.
Proof.
  destruct (decide (find content term = -1)) as [E | E].
  - right. intros H. by apply find_found in H.
  - left. by apply find_found.
Defined.

End Search.

(** ** Telling the blocks apart by their header *)

Section Headers.

Implicit Types s p q term snippet : pystr.
Implicit Types terms results : list pystr.

Lemma startswith_app s p q : startswith (p ++ s) (p ++ q) = startswith s q.
Proof.
  induction p as [| x p IH]; [done |]. simpl. by rewrite N.eqb_refl, IH.
Qed.

Lemma startswith_fmt_self term snippet :
  startswith (fmt term snippet) (header term ++ nl) = true.
Proof.
  apply startswith_spec. exists (snippet ++ nl). unfold fmt.
  by rewrite <- !app_assoc.
Qed.

(** Two terms free of a mark that are both followed by it agree. *)
Lemma marked_prefix_inj (q : char) term term' s s' :
  q ∉ term → q ∉ term' →
  startswith (term' ++ q :: s') (term ++ q :: s) = true →
  term = term'.
Proof.
  revert term'. induction term as [| c term IH]; intros term' Hq Hq' H.
  - destruct term' as [| c' term']; [done |]. simpl in H.
    apply andb_true_iff in H as [Hc _]. apply N.eqb_eq in Hc as ->.
    destruct Hq'. by left.
  - destruct term' as [| c' term']; simpl in H.
    + apply andb_true_iff in H as [Hc _]. apply N.eqb_eq in Hc as <-.
      destruct Hq. by left.
    + apply andb_true_iff in H as [Hc H]. apply N.eqb_eq in Hc as ->.
      f_equal. apply IH with (term' := term'); [| | done].
      * intros Hin. apply Hq. by right.
      * intros Hin. apply Hq'. by right.
Qed.

(** The header of a block names its term, for terms free of apostrophes. *)
Lemma header_names_term term term' snippet :
  quote ∉ term → quote ∉ term' →
  startswith (fmt term' snippet) (header term ++ nl) = true →
  term = term'.
Proof.
  intros Hq Hq' H. unfold fmt, header in H.
  rewrite <- !app_assoc in H. rewrite startswith_app in H.
  by apply (marked_prefix_inj quote) in H.
Qed.

Lemma blocks_for_app term results1 results2 :
  blocks_for term (results1 ++ results2)
  = blocks_for term results1 ++ blocks_for term results2.
Proof. apply List.filter_app. Qed.

Lemma blocks_for_own content term :
  occurs content term →
  blocks_for term (search content [term]) = [block_of content term].
Proof.
  intros H. rewrite search_single_found by done.
  unfold blocks_for, block_of. cbn [List.filter].
  by rewrite startswith_fmt_self.
Qed.

Lemma blocks_for_other content term term' :
  quote ∉ term → quote ∉ term' → term ≠ term' →
  blocks_for term (search content [term']) = [].
Proof.
  intros Hq Hq' Hne. destruct (occurs_dec content term') as [H | H].
  - rewrite search_single_found by done. unfold blocks_for, block_of.
    cbn [List.filter].
    destruct (startswith _ _) eqn:E; [| done].
    by apply header_names_term in E.
  - by rewrite search_single_absent.
Qed.

(** A term that does not occur has no block. *)
Lemma blocks_for_absent content term terms :
  quote ∉ term → Forall (fun t => quote ∉ t) terms →
  ¬ occurs content term →
  blocks_for term (search content terms) = [].
Proof.
  intros Hq Hall Hno. induction Hall as [| t terms Ht Hall IH]; [done |].
  rewrite search_cons, blocks_for_app, IH, app_nil_r.
  destruct (decide (term = t)) as [<- | Hne].
  - by rewrite search_single_absent.
  - by apply blocks_for_other.
Qed.

(** A term outside the list has no block. *)
Lemma blocks_for_not_in content term terms :
  quote ∉ term → Forall (fun t => quote ∉ t) terms →
  term ∉ terms →
  blocks_for term (search content terms) = [].
Proof.
  intros Hq Hall Hni. induction Hall as [| t terms Ht Hall IH]; [done |].
  apply not_elem_of_cons in Hni as [Hne Hni].
  rewrite search_cons, blocks_for_app, IH, app_nil_r by done.
  by apply blocks_for_other.
Qed.

(** A term that occurs, listed once, has its one block. *)
Lemma blocks_for_present content term terms :
  Forall (fun t => quote ∉ t) terms → NoDup terms →
  term ∈ terms → occurs content term →
  blocks_for term (search content terms) = [block_of content term].
Proof.
  intros Hall Hnd Hin Ho.
  assert (quote ∉ term) as Hq by (by eapply Forall_forall in Hall).
  induction Hall as [| t terms Ht Hall IH]; [by apply elem_of_nil in Hin |].
  apply NoDup_cons in Hnd as [Hni Hnd].
  rewrite search_cons, blocks_for_app.
  apply elem_of_cons in Hin as [<- | Hin].
  - by rewrite blocks_for_own, blocks_for_not_in.
  - rewrite IH by done. rewrite blocks_for_other; [done | done | done |].
    intros ->. done.
Qed.

Lemma search_terms_unquoted : Forall (fun t => quote ∉ t) search_terms.
Proof. apply (bool_decide_unpack _). by vm_compute. Qed.

Lemma search_terms_nodup : NoDup search_terms.
Proof. apply (bool_decide_unpack _). by vm_compute. Qed.

(** The code points of [search_terms] spell the literals of line 11. *)
Example search_terms_spelling :
  map utf8_encode search_terms
  = map (fun literal => Some (list_byte_of_string literal))
      ["유통(소비)기한"; "소비기한"; "50%"; "40%"; "잔여"]%string.
Proof. reflexivity. Qed.

Lemma search_terms_nonempty : Forall (fun t => t ≠ []) search_terms.
Proof. repeat constructor; discriminate. Qed.

End Headers.

(** ** The report has one block per term that occurs *)

Section Blocks.

Implicit Types content term : pystr.
Implicit Types terms : list pystr.

(** The block of a term, character by character: the header with the term
    between its apostrophes, a newline, the slice of lines 18 to 20 and a
    closing newline. *)
Lemma block_of_spelled content term :
  block_of content term
  = (lit "--- Match for '" ++ term ++ lit "' ---") ++ [10%N]
    ++ slice content (Z.max 0 (find content term - 500))
         (Z.min (len content) (find content term + 1500))
    ++ [10%N].
Proof. reflexivity. Qed.

(** The results hold the blocks of the listed terms that occur, and nothing
    else. *)
Lemma search_elem content terms (b : pystr) :
  b ∈ search content terms ↔
  ∃ term, term ∈ terms ∧ occurs content term ∧ b = block_of content term.
Proof.
  induction terms as [| t terms IH].
  - split; [intros H; by apply elem_of_nil in H |].
    intros (term & H & _). by apply elem_of_nil in H.
  - rewrite search_cons, elem_of_app, IH. split.
    + intros [H | (term & Hin & Ho & ->)].
      * destruct (occurs_dec content t) as [Ho | Ho].
        -- rewrite search_single_found in H by done.
           apply list_elem_of_singleton in H as ->.
           exists t. split; [by left | done].
        -- rewrite search_single_absent in H by done.
           by apply elem_of_nil in H.
      * exists term. split; [by right | done].
    + intros (term & Hin & Ho & ->).
      apply elem_of_cons in Hin as [-> | Hin].
      * left. rewrite search_single_found by done. by left.
      * right. by exists term.
Qed.

End Blocks.

(** C1. For every term of [search_terms] that occurs in the content, the
    index [i] that [find] answers is the first occurrence; the results hold
    the block [--- Match for '{term}' ---], newline, snippet, newline, where
    the snippet is [content[max(0, i-500) : min(len(content), i+1500)]];
    that block is the only one of the results that starts with the header
    line of the term; the slice is the plain segment between its two bounds,
    and it is at most 2000 characters long. *)
Theorem one_block_per_present_term (content term : pystr) :
  term ∈ search_terms → occurs content term →
  let i := find content term in
  let snippet :=
    slice content (Z.max 0 (i - 500)) (Z.min (len content) (i + 1500)) in
  let block :=
    (lit "--- Match for '" ++ term ++ lit "' ---") ++ [10%N]
    ++ snippet ++ [10%N] in
  occurs_at content term i ∧
  (∀ j, occurs_at content term j → i ≤ j) ∧
  block ∈ search content search_terms ∧
  List.filter
    (fun b =>
       startswith b ((lit "--- Match for '" ++ term ++ lit "' ---") ++ [10%N]))
    (search content search_terms) = [block] ∧
  blocks_for term (search content search_terms) = [block] ∧
  snippet = take (Z.to_nat (Z.min (len content) (i + 1500) - Z.max 0 (i - 500)))
                 (drop (Z.to_nat (Z.max 0 (i - 500))) content) ∧
  len snippet ≤ 2000.
Proof.
  intros Hin Ho i snippet block.
  destruct (find_occurs content term Ho) as [Hat Hmin].
  destruct (occurs_at_index content term i Hat) as [H0 H1].
  destruct (window_bounds content i H0 H1) as (? & ? & ? & ?).
  unfold window_start, window_end in *.
  assert (blocks_for term (search content search_terms) = [block]) as Hone.
  { subst block snippet i. rewrite <- block_of_spelled.
    by apply (blocks_for_present content term search_terms
                search_terms_unquoted search_terms_nodup). }
  split; [done |]. split; [done |]. split.
  { apply search_elem. exists term. split; [done |]. split; [done |].
    subst block snippet i. by rewrite block_of_spelled. }
  split; [exact Hone |]. split; [exact Hone |]. split.
  - subst snippet. apply slice_in_range; lia.
  - subst snippet. rewrite slice_len by lia. lia.
Qed.

Lemma one_block_per_present_term_witness :
  lit "50%" ∈ search_terms ∧ occurs (lit "a 50% b") (lit "50%") ∧
  List.filter
    (fun b => startswith b (lit "--- Match for '50%' ---" ++ [10%N]))
    (search (lit "a 50% b") search_terms)
  = [lit "--- Match for '50%' ---" ++ [10%N] ++ lit "a 50% b" ++ [10%N]].
Proof.
  assert (lit "50%" ∈ search_terms) as Hin
    by (apply (bool_decide_unpack _); vm_compute; exact I).
  assert (occurs (lit "a 50% b") (lit "50%")) as Ho
    by (exists 2, (lit "a "), (lit " b"); split; reflexivity).
  split; [exact Hin |]. split; [exact Ho |].
  exact (proj1 (proj2 (proj2 (proj2
    (one_block_per_present_term (lit "a 50% b") (lit "50%") Hin Ho))))).
Defined.

(** ** The scenario of the term at index 3 *)

(** C2, as the code behaves. On ["abc" + "50%" + "x"*2000] with the term list
    [["50%"]] the term is found at index 3, the window is [0 .. 1503], and
    the results are the one block whose snippet is
    ["abc" + "50%" + "x"*1497]. *)
Theorem scenario_snippet :
  find scenario_content scenario_term = 3 ∧
  Z.max 0 (3 - 500) = 0 ∧ Z.min (len scenario_content) (3 + 1500) = 1503 ∧
  search scenario_content [scenario_term]
  = [fmt scenario_term (lit "abc" ++ lit "50%" ++ repeat_str (lit "x") 1497)].
Proof. repeat split; by vm_compute. Qed.

(** C2, as the claim words it: the snippet would be
    ["abc" + "50%" + "x"*1500]. The results are not that block. *)
Lemma scenario_snippet_claimed_refuted :
  search scenario_content [scenario_term]
  ≠ [fmt scenario_term (lit "abc" ++ lit "50%" ++ repeat_str (lit "x") 1500)].
Proof.
  intros H. apply (f_equal (fun l => length (concat l))) in H.
  vm_compute in H. discriminate H.
Qed.

(** ** The window stays inside the content *)

(** C5. For an occurrence at index [i], the bounds of the slice satisfy
    [0 ≤ max(0, i-500) ≤ min(len(content), i+1500) ≤ len(content)], the
    slice is the plain segment between them and has their difference as
    length; a match at index 0 gives a snippet that starts at offset 0, and
    a match within the last 1500 characters gives a snippet that ends where
    the content ends. *)
Theorem window_in_range (content term : pystr) (i : Z) :
  occurs_at content term i →
  let start := Z.max 0 (i - 500) in
  let end_ := Z.min (len content) (i + 1500) in
  let snippet := slice content start end_ in
  (0 ≤ start ∧ start ≤ end_ ∧ end_ ≤ len content) ∧
  snippet = take (Z.to_nat (end_ - start)) (drop (Z.to_nat start) content) ∧
  len snippet = end_ - start ∧
  (i = 0 → start = 0 ∧ snippet = take (Z.to_nat end_) content) ∧
  (len content - 1500 ≤ i →
   end_ = len content ∧ snippet = drop (Z.to_nat start) content).
Proof.
  intros Hat start end_ snippet.
  destruct (occurs_at_index content term i Hat) as [H0 H1].
  assert (0 ≤ start ∧ start ≤ end_ ∧ end_ ≤ len content) as (Hs & Hse & He)
    by (subst start end_; lia).
  assert (snippet
          = take (Z.to_nat (end_ - start)) (drop (Z.to_nat start) content))
    as Hseg by (by apply slice_in_range).
  split; [done |]. split; [done |].
  split; [by apply slice_len |]. split.
  - intros ->. assert (start = 0) as Hz by (subst start; lia).
    split; [done |]. rewrite Hseg, Hz. simpl. by rewrite Z.sub_0_r.
  - intros Hlast. assert (end_ = len content) as Hz by (subst end_; lia).
    split; [done |]. rewrite Hseg, Hz. apply take_ge.
    rewrite length_drop. unfold len. lia.
Qed.

Lemma window_in_range_witness :
  occurs_at (lit "a 50% b") (lit "50%") 2 ∧
  len (slice (lit "a 50% b") (Z.max 0 (2 - 500))
         (Z.min (len (lit "a 50% b")) (2 + 1500))) = 7.
Proof.
  assert (occurs_at (lit "a 50% b") (lit "50%") 2) as Hat
    by (exists (lit "a "), (lit " b"); split; reflexivity).
  split; [exact Hat |].
  exact (proj1 (proj2 (proj2
    (window_in_range (lit "a 50% b") (lit "50%") 2 Hat)))).
Defined.

(** ** The match position lies inside the snippet *)

(** For a non-empty term that occurs, the match position is inside the
    window and the snippet holds the first character of the term there. *)
Lemma match_inside_window (content term : pystr) :
  term ≠ [] → occurs content term →
  let index := find content term in
  let start := Z.max 0 (index - 500) in
  let end_ := Z.min (len content) (index + 1500) in
  (start ≤ index ∧ index < end_) ∧
  slice content start end_ !! Z.to_nat (index - start)
  = content !! Z.to_nat index ∧
  content !! Z.to_nat index = head term.
Proof.
  intros Hne Ho index start end_.
  destruct (find_occurs content term Ho) as [Hat _]. fold index in Hat.
  pose proof (occurs_at_range content term index Hat) as [H0 H1].
  assert (0 < len term) as Hlen.
  { destruct term; [done |]. unfold len. simpl. lia. }
  assert (start ≤ index ∧ index < end_ ∧ 0 ≤ start ∧ end_ ≤ len content)
    as (Hs & He & Hs0 & Hel) by (subst start end_; lia).
  split; [done |]. split.
  - rewrite slice_in_range by lia.
    rewrite lookup_take_lt by lia. rewrite lookup_drop. f_equal. lia.
  - destruct Hat as (pre & post & -> & Hpre).
    rewrite lookup_app_r by (unfold len in Hpre; lia).
    replace (Z.to_nat index - length pre)%nat with 0%nat
      by (unfold len in Hpre; lia).
    by destruct term.
Qed.

(** C10. For every term that matches, of whatever length (the terms are
    non-empty, as those of [search_terms] are), the results hold the block
    [--- Match for '{term}' ---], newline, snippet, newline, whose snippet is
    cut with bounds [start ≤ index < end] and holds, at offset
    [index - start], the character of the content at the match position,
    the first character of the term; and every block of the results is such
    a block of a listed term that occurs. *)
Theorem match_inside_snippet
  (content : pystr) (terms : list pystr) (term : pystr) :
  Forall (fun t => t ≠ []) terms → term ∈ terms → occurs content term →
  let index := find content term in
  let start := Z.max 0 (index - 500) in
  let end_ := Z.min (len content) (index + 1500) in
  let snippet := slice content start end_ in
  ((lit "--- Match for '" ++ term ++ lit "' ---") ++ [10%N]
   ++ snippet ++ [10%N]) ∈ search content terms ∧
  (start ≤ index ∧ index < end_) ∧
  snippet !! Z.to_nat (index - start) = content !! Z.to_nat index ∧
  content !! Z.to_nat index = head term ∧
  (∀ b, b ∈ search content terms →
        ∃ t, t ∈ terms ∧ occurs content t ∧
             b = (lit "--- Match for '" ++ t ++ lit "' ---") ++ [10%N]
                 ++ slice content (Z.max 0 (find content t - 500))
                      (Z.min (len content) (find content t + 1500))
                 ++ [10%N] ∧
             Z.max 0 (find content t - 500) ≤ find content t ∧
             find content t < Z.min (len content) (find content t + 1500) ∧
             slice content (Z.max 0 (find content t - 500))
               (Z.min (len content) (find content t + 1500))
             !! Z.to_nat (find content t - Z.max 0 (find content t - 500))
             = head t) ∧
  Forall (fun t => t ≠ []) search_terms.
Proof.
  intros Hne Hin Ho index start end_ snippet.
  assert (term ≠ []) as Hterm by (by eapply Forall_forall in Hne).
  destruct (match_inside_window content term Hterm Ho) as (Hb & Hl & Hh).
  split.
  { apply search_elem. exists term. split; [done |]. split; [done |].
    subst snippet start end_ index. by rewrite block_of_spelled. }
  split; [done |]. split; [done |]. split; [done |].
  split; [| apply search_terms_nonempty].
  intros b Hb'. apply search_elem in Hb' as (t & Ht & Hot & ->).
  assert (t ≠ []) as Htne by (by eapply Forall_forall in Hne).
  destruct (match_inside_window content t Htne Hot) as ([Hs He] & Hl' & Hh').
  exists t. split; [done |]. split; [done |].
  split; [by rewrite block_of_spelled |]. split; [done |]. split; [done |].
  by rewrite Hl', Hh'.
Qed.

Lemma match_inside_snippet_witness :
  Forall (fun t => t ≠ []) search_terms ∧
  lit "50%" ∈ search_terms ∧ occurs (lit "a 50% b") (lit "50%") ∧
  (lit "--- Match for '50%' ---" ++ [10%N] ++ lit "a 50% b" ++ [10%N])
  ∈ search (lit "a 50% b") search_terms ∧
  (Z.max 0 (find (lit "a 50% b") (lit "50%") - 500)
   ≤ find (lit "a 50% b") (lit "50%") ∧
   find (lit "a 50% b") (lit "50%")
   < Z.min (len (lit "a 50% b")) (find (lit "a 50% b") (lit "50%") + 1500)).
Proof.
  assert (Forall (fun t => t ≠ []) search_terms) as Hne
    by (repeat constructor; discriminate).
  assert (lit "50%" ∈ search_terms) as Hin
    by (apply (bool_decide_unpack _); vm_compute; exact I).
  assert (occurs (lit "a 50% b") (lit "50%")) as Ho
    by (exists 2, (lit "a "), (lit " b"); split; reflexivity).
  split; [exact Hne |]. split; [exact Hin |]. split; [exact Ho |]. split.
  - exact (proj1 (match_inside_snippet (lit "a 50% b") search_terms
                    (lit "50%") Hne Hin Ho)).
  - exact (proj1 (proj2 (match_inside_snippet (lit "a 50% b") search_terms
                           (lit "50%") Hne Hin Ho))).
Defined.

(** ** Running the script on a host *)

Section Run.

Implicit Types w : world.
Implicit Types f : file.
Implicit Types content text : pystr.

Lemma paths_differ : out_path ≠ file_path.
Proof. discriminate. Qed.

Lemma set_file_twice path f g w :
  set_file path f (set_file path g w) = set_file path f w.
Proof. unfold set_file. simpl. by rewrite insert_insert_eq. Qed.

(** Reading leaves the host as it was. *)
Lemma read_text_world path w : (read_text path w).2 = w.
Proof.
  unfold read_text. destruct (files w !! path) as [f |]; [| done].
  destruct (readable f); [| done]. by destruct (utf8_decode (data f)).
Qed.

Lemma read_text_missing path w :
  files w !! path = None → read_text path w = (inl FileNotFoundError, w).
Proof. intros H. unfold read_text. by rewrite H. Qed.

Lemma read_text_unreadable path f w :
  files w !! path = Some f → readable f = false →
  read_text path w = (inl PermissionError, w).
Proof. intros H Hr. unfold read_text. by rewrite H, Hr. Qed.

Lemma read_text_undecodable path f w :
  files w !! path = Some f → readable f = true → utf8_decode (data f) = None →
  read_text path w = (inl UnicodeDecodeError, w).
Proof. intros H Hr Hd. unfold read_text. by rewrite H, Hr, Hd. Qed.

(** Reading one path does not see a change at another. *)
Lemma read_text_set_other path p f w :
  p ≠ path → (read_text path (set_file p f w)).1 = (read_text path w).1.
Proof.
  intros Hne. unfold read_text, set_file. simpl.
  rewrite lookup_insert_ne by done.
  destruct (files w !! path) as [g |]; [| done].
  destruct (readable g); [| done]. by destruct (utf8_decode (data g)).
Qed.

(** What a successful [open(path, 'w')] hands over and leaves. *)
Lemma open_w_ok path f w :
  (open_w path w).1 = inr f →
  open_w path w = (inr f, set_file path f w) ∧
  data f = [] ∧ writable f = true.
Proof.
  unfold open_w. destruct (files w !! path) as [g |].
  - destruct (writable g) eqn:Hg; simpl; [| done].
    by intros [= <-].
  - destruct (cwd_writable w); simpl; [| done]. by intros [= <-].
Qed.

(** A failed [open(path, 'w')] leaves the host as it was. *)
Lemma open_w_fail path e w :
  (open_w path w).1 = inl e → open_w path w = (inl e, w).
Proof.
  unfold open_w. destruct (files w !! path) as [g |].
  - destruct (writable g); simpl; [done |]. by intros [= <-].
  - destruct (cwd_writable w); simpl; [done |]. by intros [= <-].
Qed.

(** Opening again the file a run has written hands over the same file. *)
Lemma open_w_again path f bs w :
  (open_w path w).1 = inr f →
  open_w path (set_file path (File (readable f) (writable f) bs) w)
  = (inr f, set_file path f w).
Proof.
  intros H. apply open_w_ok in H as (_ & Hd & Hw).
  unfold open_w, set_file. simpl. rewrite lookup_insert_eq. simpl.
  rewrite Hw, insert_insert_eq. destruct f as [r wr d]. simpl in *.
  by subst.
Qed.

(** The run, step by step. *)
Lemma main_steps w :
  main w =
  match read_text file_path w with
  | (inl e, w1) => (inl e, w1)
  | (inr content, w1) =>
    match open_w out_path w1 with
    | (inl e, w2) => (inl e, w2)
    | (inr f, w2) => write out_path f (report content search_terms) w2
    end
  end.
Proof. reflexivity. Qed.

Lemma main_load_error w e :
  (read_text file_path w).1 = inl e → main w = (inl e, w).
Proof.
  intros H. rewrite main_steps. pose proof (read_text_world file_path w) as Hw.
  destruct (read_text file_path w) as [[e' | content] w1]; simpl in *.
  - by simplify_eq.
  - done.
Qed.

Lemma main_open_error w content e :
  (read_text file_path w).1 = inr content →
  (open_w out_path w).1 = inl e → main w = (inl e, w).
Proof.
  intros H Ho. rewrite main_steps.
  pose proof (read_text_world file_path w) as Hw.
  destruct (read_text file_path w) as [[e' | content'] w1]; simpl in *;
    [done |]. subst w1. by rewrite (open_w_fail _ _ _ Ho).
Qed.

Lemma main_encode_error w content f :
  (read_text file_path w).1 = inr content →
  (open_w out_path w).1 = inr f →
  utf8_encode (translate_newlines (linesep w) (report content search_terms))
  = None →
  main w = (inl UnicodeEncodeError, set_file out_path f w).
Proof.
  intros H Ho He. rewrite main_steps.
  pose proof (read_text_world file_path w) as Hw.
  destruct (read_text file_path w) as [[e' | content'] w1]; simpl in *;
    [done |]. simplify_eq.
  apply open_w_ok in Ho as (-> & _ & _). unfold write. simpl. by rewrite He.
Qed.

(** A run that loads, opens and encodes leaves the encoded report in the
    destination file and nothing else changed. *)
Lemma main_writes w content f bs :
  (read_text file_path w).1 = inr content →
  (open_w out_path w).1 = inr f →
  utf8_encode (translate_newlines (linesep w) (report content search_terms))
  = Some bs →
  main w = (inr tt, set_file out_path (File (readable f) (writable f) bs) w).
Proof.
  intros H Ho He. rewrite main_steps.
  pose proof (read_text_world file_path w) as Hw.
  destruct (read_text file_path w) as [[e' | content'] w1]; simpl in *;
    [done |]. simplify_eq.
  apply open_w_ok in Ho as (-> & _ & _). unfold write. simpl.
  by rewrite He, set_file_twice.
Qed.

(** Reading a path depends on the file at that path only. *)
Lemma read_text_ext path w1 w2 :
  files w1 !! path = files w2 !! path →
  (read_text path w1).1 = (read_text path w2).1.
Proof.
  intros H. unfold read_text. rewrite H.
  destruct (files w2 !! path) as [g |]; [| done].
  destruct (readable g); [| done]. by destruct (utf8_decode (data g)).
Qed.

(** Opening again the file a run has emptied hands over the same file. *)
Lemma open_w_reopen path f w :
  (open_w path w).1 = inr f →
  open_w path (set_file path f w) = (inr f, set_file path f w).
Proof.
  intros H. pose proof (open_w_again path f [] w H) as Ha.
  apply open_w_ok in H as (_ & Hd & _).
  destruct f as [r wr d]. simpl in *. by subst.
Qed.

(** A run that succeeds has loaded, opened, encoded and written. *)
Lemma main_success_inv w :
  (main w).1 = inr tt →
  ∃ content f bs,
    (read_text file_path w).1 = inr content ∧
    (open_w out_path w).1 = inr f ∧
    utf8_encode (translate_newlines (linesep w) (report content search_terms))
    = Some bs ∧
    main w = (inr tt, set_file out_path (File (readable f) (writable f) bs) w).
Proof.
  intros H.
  destruct ((read_text file_path w).1) as [e | content] eqn:Hr.
  { rewrite (main_load_error _ _ Hr) in H. done. }
  destruct ((open_w out_path w).1) as [e | f] eqn:Ho.
  { rewrite (main_open_error _ _ _ Hr Ho) in H. done. }
  destruct (utf8_encode
              (translate_newlines (linesep w) (report content search_terms)))
    as [bs |] eqn:He.
  - exists content, f, bs. repeat split; try done.
    by apply (main_writes w content).
  - rewrite (main_encode_error _ _ _ Hr Ho He) in H. done.
Qed.

End Run.

(** ** A load error stops the run before the destination is touched *)

(** C3. When reading the source fails, the run ends with the error of the
    read and the host is exactly as before; in particular the destination
    path holds what it held, or nothing if it held nothing. The read fails
    in three ways: the path is missing ([FileNotFoundError]), the file is
    unreadable ([PermissionError]), or its bytes do not decode
    ([UnicodeDecodeError]). *)
Theorem load_error_aborts (w : world) (e : exn) :
  (read_text file_path w).1 = inl e →
  main w = (inl e, w) ∧
  files (main w).2 !! out_path = files w !! out_path ∧
  ((files w !! file_path = None ∧ e = FileNotFoundError) ∨
   (∃ f, files w !! file_path = Some f ∧
         ((readable f = false ∧ e = PermissionError) ∨
          (readable f = true ∧ utf8_decode (data f) = None ∧
           e = UnicodeDecodeError)))).
Proof.
  intros H. pose proof (main_load_error w e H) as Hm.
  split; [done |]. split; [by rewrite Hm |].
  unfold read_text in H. destruct (files w !! file_path) as [f |] eqn:Hf.
  - right. exists f. split; [done |].
    destruct (readable f) eqn:Hr.
    + right. destruct (utf8_decode (data f)); simpl in H; [done |].
      by injection H as <-.
    + left. simpl in H. by injection H as <-.
  - left. simpl in H. by injection H as <-.
Qed.

Lemma load_error_aborts_witness :
  (read_text file_path world_without_source).1 = inl FileNotFoundError ∧
  main world_without_source = (inl FileNotFoundError, world_without_source).
Proof.
  assert ((read_text file_path world_without_source).1 = inl FileNotFoundError)
    as H by reflexivity.
  split; [exact H |].
  exact (proj1 (load_error_aborts world_without_source FileNotFoundError H)).
Defined.

(** ** Terms that do not occur *)

(** C4. A term of [search_terms] that occurs nowhere in the content has no
    block in the results. When no term of [search_terms] occurs and the
    destination can be opened, the results and the report are empty and the
    run succeeds, leaving an empty destination file. *)
Theorem absent_terms_have_no_block :
  (∀ content term,
     term ∈ search_terms → ¬ occurs content term →
     blocks_for term (search content search_terms) = []) ∧
  (∀ w content f,
     (read_text file_path w).1 = inr content →
     (∀ term, term ∈ search_terms → ¬ occurs content term) →
     (open_w out_path w).1 = inr f →
     search content search_terms = [] ∧
     report content search_terms = [] ∧
     main w = (inr tt, set_file out_path (File (readable f) (writable f) []) w)).
Proof.
  split.
  - intros content term Hin Hno.
    apply blocks_for_absent; [| apply search_terms_unquoted | done].
    pose proof search_terms_unquoted as Hall.
    by eapply Forall_forall in Hall.
  - intros w content f Hr Hno Ho.
    assert (∀ terms, (∀ t, t ∈ terms → ¬ occurs content t) →
                     search content terms = []) as Hnil.
    { induction terms as [| t terms IH]; intros Hts; [done |].
      rewrite search_cons, search_single_absent, IH; [done | |].
      - intros t' Ht'. apply Hts. by right.
      - apply Hts. by left. }
    assert (search content search_terms = []) as Hs by (by apply Hnil).
    assert (report content search_terms = []) as Hrep
      by (unfold report; by rewrite Hs).
    split; [done |]. split; [done |].
    apply (main_writes w content f []); [done | done |].
    by rewrite Hrep.
Qed.

Lemma absent_terms_have_no_block_witness :
  blocks_for (lit "40%") (search (lit "a 50% b") search_terms) = [] ∧
  main (world_with (lit "nothing here"))
  = (inr tt, set_file out_path (File true true [])
               (world_with (lit "nothing here"))).
Proof.
  split.
  - apply (proj1 absent_terms_have_no_block (lit "a 50% b") (lit "40%")).
    + apply (bool_decide_unpack _). vm_compute. exact I.
    + intros Ho. apply find_found in Ho. apply Ho. vm_compute. reflexivity.
  - assert (∀ term, term ∈ search_terms →
                    ¬ occurs (lit "nothing here") term) as Hno.
    { intros term Hin Ho. apply find_found in Ho. apply Ho. clear Ho.
      unfold search_terms in Hin.
      repeat (apply elem_of_cons in Hin as [-> | Hin];
              [vm_compute; reflexivity |]).
      by apply elem_of_nil in Hin. }
    exact (proj2 (proj2 (proj2 absent_terms_have_no_block
             (world_with (lit "nothing here")) (lit "nothing here")
             (File true true []) eq_refl Hno eq_refl))).
Defined.

(** ** Text after the window, and the order of the blocks *)

Section Shape.

Implicit Types content extra term : pystr.
Implicit Types terms : list pystr.

Lemma occurs_at_app_l content extra term i :
  occurs_at content term i → occurs_at (content ++ extra) term i.
Proof.
  intros (pre & post & -> & Hpre). exists pre, (post ++ extra).
  by rewrite <- !app_assoc.
Qed.

(** An occurrence that ends inside the first part is one of the first part. *)
Lemma occurs_at_app_inv content extra term j :
  occurs_at (content ++ extra) term j → j + len term ≤ len content →
  occurs_at content term j.
Proof.
  intros (pre & post & Heq & Hpre) Hfit.
  rewrite app_assoc in Heq.
  apply app_eq_inv in Heq as [(k & Hc & _) | (k & Hk & _)].
  - exists pre, k. by rewrite app_assoc.
  - assert (k = []) as ->.
    { apply len_nil_inv. apply (f_equal len) in Hk.
      rewrite !len_app in Hk. pose proof (len_nonneg k). lia. }
    rewrite app_nil_r in Hk. exists pre, []. by rewrite app_nil_r.
Qed.

(** Text appended to the content does not move the first occurrence. *)
Lemma find_app_stable content extra term :
  occurs content term → find (content ++ extra) term = find content term.
Proof.
  intros Ho. destruct (find_occurs content term Ho) as [Hat Hmin].
  assert (occurs (content ++ extra) term) as Ho'
    by (eexists; by apply occurs_at_app_l).
  destruct (find_occurs _ term Ho') as [Hat' Hmin'].
  pose proof (Hmin' _ (occurs_at_app_l content extra term _ Hat)) as Hle.
  pose proof (occurs_at_range _ _ _ Hat) as [_ Hfit].
  apply occurs_at_app_inv in Hat'; [| lia]. apply Hmin in Hat'. lia.
Qed.

(** Text appended past the window does not change the block. *)
Lemma search_app_stable content extra term :
  occurs content term → find content term + 1500 ≤ len content →
  search (content ++ extra) [term] = search content [term].
Proof.
  intros Ho Hwin.
  assert (occurs (content ++ extra) term) as Ho'.
  { destruct Ho as [i Hi]. exists i. by apply occurs_at_app_l. }
  rewrite !search_single_found by done. unfold block_of. f_equal. f_equal.
  rewrite find_app_stable by done.
  destruct (find_occurs content term Ho) as [Hat _].
  destruct (occurs_at_index _ _ _ Hat) as [H0 H1].
  pose proof (len_nonneg extra).
  unfold snippet_at, window_start, window_end. rewrite len_app.
  rewrite !Z.min_r by lia.
  rewrite !slice_in_range by (rewrite ?len_app; lia).
  rewrite drop_app_le by (unfold len in *; lia).
  apply take_app_le. rewrite length_drop. unfold len in *. lia.
Qed.

(** The results are the blocks of the terms that occur, in list order. *)
Lemma search_filter content terms :
  search content terms
  = map (block_of content) (filter (fun t => find content t ≠ -1) terms).
Proof.
  induction terms as [| t terms IH]; [done |].
  rewrite search_cons, IH, filter_cons.
  destruct (decide (find content t ≠ -1)) as [Hf | Hf].
  - apply find_found in Hf. by rewrite search_single_found.
  - rewrite search_single_absent; [done |]. intros Ho. by apply find_found in Ho.
Qed.

Lemma search_concat content terms :
  search content terms = concat (map (fun t => search content [t]) terms).
Proof.
  induction terms as [| t terms IH]; [done |].
  rewrite search_cons, IH. done.
Qed.

Lemma join_app sep (bs1 bs2 : list pystr) :
  bs1 ≠ [] → bs2 ≠ [] →
  join sep (bs1 ++ bs2) = join sep bs1 ++ sep ++ join sep bs2.
Proof.
  intros H1 H2. induction bs1 as [| b bs1 IH]; [done |].
  destruct bs1 as [| b1 bs1].
  - destruct bs2; [done |]. done.
  - change (b ++ sep ++ join sep ((b1 :: bs1) ++ bs2)
            = (b ++ sep ++ join sep (b1 :: bs1)) ++ sep ++ join sep bs2).
    rewrite IH by done. by rewrite <- !app_assoc.
Qed.

(** The joined text ends with its last part and starts with its first. *)
Lemma join_snoc sep (bs : list pystr) (b : pystr) :
  ∃ pre, join sep (bs ++ [b]) = pre ++ b.
Proof.
  destruct bs as [| b0 bs].
  - by exists [].
  - exists (join sep (b0 :: bs) ++ sep).
    rewrite join_app by done. by rewrite <- app_assoc.
Qed.

Lemma join_head sep (b : pystr) (bs : list pystr) :
  ∃ post, join sep (b :: bs) = b ++ post.
Proof.
  destruct bs as [| b1 bs].
  - exists []. by rewrite app_nil_r.
  - by exists (sep ++ join sep (b1 :: bs)).
Qed.

End Shape.

(** ** Only the first occurrence counts *)

(** C6. For a term that occurs, the index given by [find] is an occurrence
    and no occurrence has a lower index; the term contributes exactly one
    block, cut around that index, whatever the number of occurrences; and
    text that follows the window, with any further occurrences in it,
    leaves the block as it is. *)
Theorem first_occurrence_only (content term : pystr) :
  occurs content term →
  let i := find content term in
  occurs_at content term i ∧
  (∀ j, occurs_at content term j → i ≤ j) ∧
  search content [term]
  = [fmt term
       (slice content (Z.max 0 (i - 500)) (Z.min (len content) (i + 1500)))] ∧
  (∀ extra, i + 1500 ≤ len content →
            find (content ++ extra) term = i ∧
            search (content ++ extra) [term] = search content [term]).
Proof.
  intros Ho i. destruct (find_occurs content term Ho) as [Hat Hmin].
  split; [done |]. split; [done |]. split.
  - by apply search_single_found.
  - intros extra Hwin. split.
    + by apply find_app_stable.
    + by apply search_app_stable.
Qed.

Lemma first_occurrence_only_witness :
  occurs (lit "40% or 40%") (lit "40%") ∧
  find (lit "40% or 40%") (lit "40%") = 0 ∧
  search (lit "40% or 40%") [lit "40%"]
  = [fmt (lit "40%") (lit "40% or 40%")].
Proof.
  assert (occurs (lit "40% or 40%") (lit "40%")) as Ho
    by (exists 7, (lit "40% or "), []; split; reflexivity).
  split; [exact Ho |]. split; [reflexivity |].
  exact (proj1 (proj2 (proj2
    (first_occurrence_only (lit "40% or 40%") (lit "40%") Ho)))).
Defined.

(** ** The blocks follow the order of the terms *)

(** C7. The results are the blocks of the terms whose [find] is not [-1],
    in the order of the term list, each block made from its own term and the
    content alone; the results of a list are the results of its terms taken
    one by one, and of two lists one after the other; this holds for the
    fixed list [search_terms] as for any other. *)
Theorem blocks_follow_term_order (content : pystr) (terms : list pystr) :
  search content terms
  = map (fun t =>
           fmt t (slice content (Z.max 0 (find content t - 500))
                    (Z.min (len content) (find content t + 1500))))
        (filter (fun t => find content t ≠ -1) terms) ∧
  search content terms = concat (map (fun t => search content [t]) terms) ∧
  (∀ terms1 terms2,
     search content (terms1 ++ terms2)
     = search content terms1 ++ search content terms2) ∧
  search content search_terms
  = concat (map (fun t => search content [t]) search_terms).
Proof.
  split; [exact (search_filter content terms) |].
  split; [apply search_concat |].
  split; [apply search_app | apply search_concat].
Qed.

(** ** The layout of the report *)

(** C8. The blocks of the results are exactly the texts
    [--- Match for '{term}' ---], newline, raw snippet, newline, of the
    listed terms that occur. The header line identifies the term: a term
    free of apostrophes whose header line starts a block of another such
    term is that term, and the terms of [search_terms] hold no apostrophe
    and no newline, so their header is one line. The report is the blocks
    joined by one newline: where block [b'] follows block [b], the text is
    what was joined up to [b], one newline, and what is joined from [b'] on,
    so that exactly one empty line lies between the closing newline of [b]
    and the header of [b']. A run that loads the content, opens the
    destination and encodes the report leaves the encoded report of
    [search_terms], as one string, in the destination file. *)
Theorem report_layout (content : pystr) (terms : list pystr) :
  (∀ b, b ∈ search content terms ↔
        ∃ term, term ∈ terms ∧ occurs content term ∧
                b = (lit "--- Match for '" ++ term ++ lit "' ---") ++ [10%N]
                    ++ slice content (Z.max 0 (find content term - 500))
                         (Z.min (len content) (find content term + 1500))
                    ++ [10%N]) ∧
  (∀ term term' snippet,
     39%N ∉ term → 39%N ∉ term' →
     startswith
       ((lit "--- Match for '" ++ term' ++ lit "' ---") ++ [10%N]
        ++ snippet ++ [10%N])
       ((lit "--- Match for '" ++ term ++ lit "' ---") ++ [10%N]) = true →
     term = term') ∧
  Forall (fun term => 39%N ∉ term) search_terms ∧
  report content terms = join [10%N] (search content terms) ∧
  (∀ rs b b' rs',
     search content terms = rs ++ b :: b' :: rs' →
     ∃ pre post,
       join [10%N] (rs ++ [b]) = pre ++ b ∧
       join [10%N] (b' :: rs') = b' ++ post ∧
       report content terms = (pre ++ b) ++ [10%N] ++ (b' ++ post)) ∧
  Forall
    (fun term => 10%N ∉ lit "--- Match for '" ++ term ++ lit "' ---")
    search_terms ∧
  (∀ w f bs,
     (read_text file_path w).1 = inr content →
     (open_w out_path w).1 = inr f →
     utf8_encode (translate_newlines (linesep w) (report content search_terms))
     = Some bs →
     main w = (inr tt, set_file out_path (File (readable f) (writable f) bs) w)).
Proof.
  split; [| split; [| split; [| split; [done | split; [| split]]]]].
  - intros b. rewrite search_elem. split.
    + intros (t & Ht & Ho & ->). exists t. by rewrite block_of_spelled.
    + intros (t & Ht & Ho & ->). exists t. by rewrite block_of_spelled.
  - intros term term' snippet Hq Hq' H.
    by apply (header_names_term term term' snippet).
  - apply search_terms_unquoted.
  - intros rs b b' rs' Hs.
    destruct (join_snoc [10%N] rs b) as [pre Hpre].
    destruct (join_head [10%N] b' rs') as [post Hpost].
    exists pre, post. split; [done |]. split; [done |].
    unfold report, nl. rewrite Hs, <- Hpre, <- Hpost.
    replace (rs ++ b :: b' :: rs') with ((rs ++ [b]) ++ b' :: rs')
      by (by rewrite <- app_assoc).
    apply join_app; [by destruct rs | done].
  - apply (bool_decide_unpack _). by vm_compute.
  - intros w f bs. apply main_writes.
Qed.

Lemma report_layout_witness :
  search (lit "50% and 40%") search_terms
  = [] ++ (lit "--- Match for '50%' ---" ++ [10%N] ++ lit "50% and 40%"
           ++ [10%N])
       :: (lit "--- Match for '40%' ---" ++ [10%N] ++ lit "50% and 40%"
           ++ [10%N]) :: [] ∧
  report (lit "50% and 40%") search_terms
  = (lit "--- Match for '50%' ---" ++ [10%N] ++ lit "50% and 40%" ++ [10%N])
    ++ [10%N]
    ++ (lit "--- Match for '40%' ---" ++ [10%N] ++ lit "50% and 40%"
        ++ [10%N]).
Proof.
  assert (search (lit "50% and 40%") search_terms
          = [] ++ (lit "--- Match for '50%' ---" ++ [10%N]
                   ++ lit "50% and 40%" ++ [10%N])
               :: (lit "--- Match for '40%' ---" ++ [10%N]
                   ++ lit "50% and 40%" ++ [10%N]) :: []) as Hs
    by reflexivity.
  split; [exact Hs |].
  destruct (proj1 (proj2 (proj2 (proj2 (proj2
    (report_layout (lit "50% and 40%") search_terms))))) _ _ _ _ Hs)
    as (pre & post & Hpre & Hpost & Hrep).
  rewrite Hrep, <- Hpre, <- Hpost. reflexivity.
Defined.

(** ** Running twice *)

(** C9. A second run on the host the first run left ends as the first did
    and leaves that host unchanged, so the destination file holds the same
    bytes after both; and two successful runs on hosts whose source file and
    line separator agree leave the same bytes in the destination file. *)
Theorem rerun_same_output :
  (∀ w, main (main w).2 = main w) ∧
  (∀ w1 w2,
     files w1 !! file_path = files w2 !! file_path →
     linesep w1 = linesep w2 →
     (main w1).1 = inr tt → (main w2).1 = inr tt →
     data <$> files (main w1).2 !! out_path
     = data <$> files (main w2).2 !! out_path).
Proof.
  split.
  - intros w.
    destruct ((read_text file_path w).1) as [e | content] eqn:Hr.
    { rewrite (main_load_error _ _ Hr). simpl. by apply main_load_error. }
    destruct ((open_w out_path w).1) as [e | f] eqn:Ho.
    { rewrite (main_open_error _ _ _ Hr Ho). simpl.
      by apply (main_open_error w content). }
    destruct (utf8_encode
                (translate_newlines (linesep w) (report content search_terms)))
      as [bs |] eqn:He.
    + rewrite (main_writes _ _ _ _ Hr Ho He). simpl.
      set (w' := set_file out_path (File (readable f) (writable f) bs) w).
      assert ((read_text file_path w').1 = inr content) as Hr'
        by (subst w'; by rewrite read_text_set_other by apply paths_differ).
      assert ((open_w out_path w').1 = inr f) as Ho'
        by (subst w'; by rewrite (open_w_again _ _ _ _ Ho)).
      rewrite (main_writes w' content f bs Hr' Ho' He).
      subst w'. by rewrite set_file_twice.
    + rewrite (main_encode_error _ _ _ Hr Ho He). simpl.
      set (w' := set_file out_path f w).
      assert ((read_text file_path w').1 = inr content) as Hr'
        by (subst w'; by rewrite read_text_set_other by apply paths_differ).
      assert ((open_w out_path w').1 = inr f) as Ho'
        by (subst w'; by rewrite (open_w_reopen _ _ _ Ho)).
      rewrite (main_encode_error w' content f Hr' Ho' He).
      subst w'. by rewrite set_file_twice.
  - intros w1 w2 Hsrc Hsep H1 H2.
    apply main_success_inv in H1 as (c1 & f1 & bs1 & Hr1 & _ & He1 & ->).
    apply main_success_inv in H2 as (c2 & f2 & bs2 & Hr2 & _ & He2 & ->).
    rewrite (read_text_ext _ _ _ Hsrc), Hr2 in Hr1. injection Hr1 as <-.
    rewrite Hsep, He2 in He1. injection He1 as <-.
    unfold set_file. simpl. by rewrite !lookup_insert_eq.
Qed.

Lemma rerun_same_output_witness :
  files (world_with (lit "a 50% b")) !! file_path
  = files (world_with (lit "a 50% b")) !! file_path ∧
  main (main (world_with (lit "a 50% b"))).2 = main (world_with (lit "a 50% b")) ∧
  data <$> files (main (world_with (lit "a 50% b"))).2 !! out_path
  = data <$> files (main (main (world_with (lit "a 50% b"))).2).2 !! out_path.
Proof.
  split; [reflexivity |]. split.
  - exact (proj1 rerun_same_output (world_with (lit "a 50% b"))).
  - apply (proj2 rerun_same_output
             (world_with (lit "a 50% b"))
             (main (world_with (lit "a 50% b"))).2);
      reflexivity.
Defined.

(** ** More on [find], slices and the snippet *)

Section Snippets.

Implicit Types s sub content term : pystr.

(** A slice with any two bounds is a contiguous part of the string. *)
Lemma slice_part s start stop :
  ∃ pre post, s = pre ++ slice s start stop ++ post.
Proof.
  unfold slice.
  set (lo := Z.to_nat (adjust (len s) start)).
  set (n := Z.to_nat (adjust (len s) stop - adjust (len s) start)).
  exists (take lo s), (drop n (drop lo s)).
  by rewrite take_drop, take_drop.
Qed.

Lemma adjust_range n i : 0 ≤ n → 0 ≤ adjust n i ∧ adjust n i ≤ n.
Proof. intros Hn. unfold adjust. destruct (Z.ltb_spec i 0); lia. Qed.

End Snippets.

(** X1. [find] answers [-1] exactly when the term occurs nowhere; otherwise
    its answer is an index at which the term lies wholly inside the string.
    The empty term is found at index 0 of every string, the empty one
    included. *)
Theorem find_answer_fits (s sub : pystr) :
  ((find s sub = -1 ∧ ¬ occurs s sub) ∨
   (0 ≤ find s sub ∧ find s sub + len sub ≤ len s ∧
    occurs_at s sub (find s sub))) ∧
  find s [] = 0.
Proof.
  split; [| by destruct s].
  destruct (occurs_dec s sub) as [Ho | Ho].
  - right. destruct (find_occurs s sub Ho) as [Hat _].
    destruct (occurs_at_range _ _ _ Hat) as [H0 H1]. by repeat split.
  - left. split; [by apply find_absent | done].
Qed.

(** X2. A term longer than the content is not found and gives no block; so
    an empty content gives no block for any non-empty term. *)
Theorem longer_term_not_found (content term : pystr) :
  len content < len term →
  find content term = -1 ∧ search content [term] = [].
Proof.
  intros Hlen.
  assert (¬ occurs content term) as Hno.
  { intros [i Hi]. apply occurs_at_range in Hi. lia. }
  split; [by apply find_absent | by apply search_single_absent].
Qed.

Lemma longer_term_not_found_witness :
  len [] < len (lit "50%") ∧ search [] [lit "50%"] = [].
Proof.
  assert (len [] < len (lit "50%")) as H by (vm_compute; reflexivity).
  split; [exact H |].
  exact (proj2 (longer_term_not_found [] (lit "50%") H)).
Defined.

(** X3. Slicing never fails: whatever the two bounds, negative or past the
    end, the slice is a contiguous part of the string, no longer than it.
    An upper bound past the end is cut to the length by the slice itself, so
    the [min] of line 19 leaves the slice as it would be without it. *)
Theorem slice_total (s : pystr) (start stop : Z) :
  (∃ pre post, s = pre ++ slice s start stop ++ post) ∧
  len (slice s start stop) ≤ len s ∧
  (0 ≤ stop → slice s start (Z.min (len s) stop) = slice s start stop).
Proof.
  split; [apply slice_part |]. split.
  - destruct (slice_part s start stop) as (pre & post & Hs).
    apply (f_equal len) in Hs. rewrite !len_app in Hs.
    pose proof (len_nonneg pre). pose proof (len_nonneg post). lia.
  - intros Hstop. unfold slice. f_equal. f_equal. f_equal.
    pose proof (len_nonneg s). unfold adjust.
    destruct (Z.ltb_spec (Z.min (len s) stop) 0); [lia |].
    destruct (Z.ltb_spec stop 0); lia.
Qed.

Lemma slice_total_witness :
  0 ≤ 1503 ∧
  slice (lit "a 50% b") 0 (Z.min (len (lit "a 50% b")) 1503)
  = slice (lit "a 50% b") 0 1503.
Proof.
  assert (0 ≤ 1503) as H by lia.
  split; [exact H |].
  exact (proj2 (proj2 (slice_total (lit "a 50% b") 0 1503)) H).
Defined.

(** X4. The snippet of a term that occurs lies in the content at offset
    [start]: the content is what precedes [start], the snippet, and what
    follows [end]. Nothing in the snippet is made up or reordered. *)
Theorem snippet_is_part_of_content (content term : pystr) :
  occurs content term →
  let index := find content term in
  let start := Z.max 0 (index - 500) in
  let end_ := Z.min (len content) (index + 1500) in
  content = take (Z.to_nat start) content
            ++ slice content start end_
            ++ drop (Z.to_nat end_) content ∧
  occurs_at content (slice content start end_) start.
Proof.
  intros Ho index start end_.
  destruct (find_occurs content term Ho) as [Hat _].
  destruct (occurs_at_index content term _ Hat) as [H0 H1].
  assert (0 ≤ start ∧ start ≤ end_ ∧ end_ ≤ len content) as (Hs & Hse & He)
    by (subst start end_ index; lia).
  pose proof (slice_split content start end_ Hs Hse He) as Hsplit.
  split; [done |].
  exists (take (Z.to_nat start) content), (drop (Z.to_nat end_) content).
  split; [done |]. unfold len in *. rewrite length_take. lia.
Qed.

Lemma snippet_is_part_of_content_witness :
  occurs (lit "a 50% b") (lit "50%") ∧
  occurs_at (lit "a 50% b")
    (slice (lit "a 50% b")
       (Z.max 0 (find (lit "a 50% b") (lit "50%") - 500))
       (Z.min (len (lit "a 50% b"))
          (find (lit "a 50% b") (lit "50%") + 1500)))
    (Z.max 0 (find (lit "a 50% b") (lit "50%") - 500)).
Proof.
  assert (occurs (lit "a 50% b") (lit "50%")) as Ho
    by (exists 2, (lit "a "), (lit " b"); split; reflexivity).
  split; [exact Ho |].
  exact (proj2 (snippet_is_part_of_content (lit "a 50% b") (lit "50%") Ho)).
Defined.

(** A term of at most 1500 characters that occurs lies wholly inside the
    window cut around its first occurrence. *)
Lemma term_inside_window (content term : pystr) :
  len term ≤ 1500 → occurs content term →
  let index := find content term in
  let start := Z.max 0 (index - 500) in
  let end_ := Z.min (len content) (index + 1500) in
  occurs_at (slice content start end_) term (index - start).
Proof.
  intros Hshort Ho index start end_.
  destruct (find_occurs content term Ho) as [Hat _]. fold index in Hat.
  pose proof (occurs_at_range content term index Hat) as [H0 H1].
  assert (0 ≤ start ∧ start ≤ index ∧ index + len term ≤ end_ ∧
          end_ ≤ len content) as (Hs & Hsi & Hie & He)
    by (subst start end_; lia).
  pose proof (len_nonneg term) as Hterm.
  rewrite slice_in_range by lia.
  destruct Hat as (pre & post & -> & Hpre).
  rewrite !len_app in He. unfold len in *.
  rewrite drop_app_le by lia.
  rewrite take_app_ge by (rewrite length_drop; lia).
  rewrite take_app_ge by (rewrite length_drop; lia).
  exists (drop (Z.to_nat start) pre), (take (Z.to_nat (end_ - start)
    - length (drop (Z.to_nat start) pre) - length term) post).
  split; [done |]. unfold len. rewrite length_drop. lia.
Qed.

(** X5. For a listed term of at most 1500 characters that occurs, the
    results hold the block [--- Match for '{term}' ---], newline, snippet,
    newline, and the term lies wholly inside that snippet, at offset
    [index - start]. Every term of [search_terms] is that short, so every
    block of the script's results shows its term twice in full: between the
    apostrophes of its header and inside its snippet. *)
Theorem snippet_holds_term
  (content : pystr) (terms : list pystr) (term : pystr) :
  term ∈ terms → len term ≤ 1500 → occurs content term →
  let index := find content term in
  let start := Z.max 0 (index - 500) in
  let end_ := Z.min (len content) (index + 1500) in
  let snippet := slice content start end_ in
  ((lit "--- Match for '" ++ term ++ lit "' ---") ++ [10%N]
   ++ snippet ++ [10%N]) ∈ search content terms ∧
  occurs_at snippet term (index - start) ∧
  (∀ b, b ∈ search content search_terms →
        ∃ t pre post,
          t ∈ search_terms ∧
          b = (lit "--- Match for '" ++ t ++ lit "' ---") ++ [10%N]
              ++ (pre ++ t ++ post) ++ [10%N]) ∧
  Forall (fun t => len t ≤ 1500) search_terms.
Proof.
  intros Hin Hshort Ho index start end_ snippet.
  assert (Forall (fun t => len t ≤ 1500) search_terms) as Hall
    by (repeat constructor; by vm_compute).
  split.
  { apply search_elem. exists term. split; [done |]. split; [done |].
    subst snippet start end_ index. by rewrite block_of_spelled. }
  split; [by apply term_inside_window |]. split; [| done].
  intros b Hb. apply search_elem in Hb as (t & Ht & Hot & ->).
  assert (len t ≤ 1500) as Hlen by (by eapply Forall_forall in Hall).
  destruct (term_inside_window content t Hlen Hot) as (pre & post & Hs & _).
  exists t, pre, post. split; [done |]. by rewrite block_of_spelled, Hs.
Qed.

Lemma snippet_holds_term_witness :
  lit "50%" ∈ search_terms ∧ len (lit "50%") ≤ 1500 ∧
  occurs (lit "a 50% b") (lit "50%") ∧
  (lit "--- Match for '50%' ---" ++ [10%N] ++ lit "a 50% b" ++ [10%N])
  ∈ search (lit "a 50% b") search_terms ∧
  occurs_at (lit "a 50% b") (lit "50%") 2.
Proof.
  assert (lit "50%" ∈ search_terms) as Hin
    by (apply (bool_decide_unpack _); vm_compute; exact I).
  assert (len (lit "50%") ≤ 1500) as Hs by (vm_compute; discriminate).
  assert (occurs (lit "a 50% b") (lit "50%")) as Ho
    by (exists 2, (lit "a "), (lit " b"); split; reflexivity).
  split; [exact Hin |]. split; [exact Hs |]. split; [exact Ho |]. split.
  - exact (proj1 (snippet_holds_term (lit "a 50% b") search_terms
                    (lit "50%") Hin Hs Ho)).
  - exact (proj1 (proj2 (snippet_holds_term (lit "a 50% b") search_terms
                           (lit "50%") Hin Hs Ho))).
Defined.

(** ** The size of the report *)

Section Size.

Implicit Types content term : pystr.
Implicit Types terms bs : list pystr.

Lemma len_header term : len (header term) = len term + 20.
Proof.
  unfold header. rewrite !len_app.
  change (len (lit "--- Match for '")) with 15.
  change (len (lit "' ---")) with 5. lia.
Qed.

Lemma len_fmt term snippet :
  len (fmt term snippet) = len term + 22 + len snippet.
Proof.
  unfold fmt. rewrite !len_app, len_header.
  change (len nl) with 1. lia.
Qed.

(** The characters of the parts, each counted with one separator. *)
Lemma len_join sep bs :
  bs ≠ [] →
  len (join sep bs) + len sep
  = foldr (fun b acc => len b + len sep + acc) 0 bs.
Proof.
  intros Hne. induction bs as [| b bs IH]; [done |].
  destruct bs as [| b1 bs].
  - simpl. lia.
  - change (join sep (b :: b1 :: bs)) with (b ++ sep ++ join sep (b1 :: bs)).
    rewrite !len_app. cbn [foldr] in *. rewrite <- IH by done. lia.
Qed.

Lemma len_block_of content term :
  occurs content term → len (block_of content term) ≤ len term + 2022.
Proof.
  intros Ho. destruct (find_occurs content term Ho) as [Hat _].
  destruct (occurs_at_index content term _ Hat) as [H0 H1].
  unfold block_of. rewrite len_fmt, snippet_len by done.
  pose proof (window_width content (find content term)). lia.
Qed.

Lemma search_cost content terms :
  foldr (fun b acc => len b + len nl + acc) 0 (search content terms)
  ≤ budget terms.
Proof.
  induction terms as [| t terms IH]; [done |].
  rewrite search_cons, foldr_app. cbn [budget foldr]. fold (budget terms).
  pose proof (len_nonneg t).
  destruct (occurs_dec content t) as [Ho | Ho].
  - rewrite search_single_found by done. cbn [foldr].
    pose proof (len_block_of content t Ho). change (len nl) with 1 in *. lia.
  - rewrite search_single_absent by done. cbn [foldr]. lia.
Qed.

Lemma search_length content terms :
  (length (search content terms) ≤ length terms)%nat.
Proof.
  induction terms as [| t terms IH]; [done |].
  rewrite search_cons, length_app. cbn [length].
  destruct (occurs_dec content t) as [Ho | Ho].
  - rewrite search_single_found by done. simpl. lia.
  - rewrite search_single_absent by done. simpl. lia.
Qed.

End Size.

(** X6. The report is bounded whatever the size of the content: it holds
    at most one block per term, and its length is at most the sum, over the
    terms, of [len(term) + 2023], less one; for [search_terms] that is at
    most 5 blocks and 10134 characters. *)
Theorem report_is_bounded (content : pystr) (terms : list pystr) :
  (length (search content terms) ≤ length terms)%nat ∧
  len (report content terms) ≤ Z.max 0 (budget terms - 1) ∧
  (length (search content search_terms) ≤ 5)%nat ∧
  len (report content search_terms) ≤ 10134.
Proof.
  assert (∀ ts, len (report content ts) ≤ Z.max 0 (budget ts - 1)) as Hb.
  { intros ts. unfold report.
    destruct (search content ts) as [| b bs] eqn:E;
      [change (len (join nl [])) with 0; lia |].
    pose proof (search_cost content ts) as Hc. rewrite E in Hc.
    rewrite <- len_join in Hc by done. change (len nl) with 1 in Hc. lia. }
  split; [apply search_length |]. split; [apply Hb |].
  split; [apply (search_length content search_terms) |].
  apply (Hb search_terms).
Qed.

(** ** What a run leaves alone *)

Section Frame.

Implicit Types w : world.

(** A run leaves the host as it was or with one new file at the
    destination path. *)
Lemma main_world w :
  (main w).2 = w ∨ ∃ f, (main w).2 = set_file out_path f w.
Proof.
  destruct ((read_text file_path w).1) as [e | content] eqn:Hr.
  { left. by rewrite (main_load_error _ _ Hr). }
  destruct ((open_w out_path w).1) as [e | f] eqn:Ho.
  { left. by rewrite (main_open_error _ _ _ Hr Ho). }
  destruct (utf8_encode
              (translate_newlines (linesep w) (report content search_terms)))
    as [bs |] eqn:He.
  - right. eexists. by rewrite (main_writes _ _ _ _ Hr Ho He).
  - right. exists f. by rewrite (main_encode_error _ _ _ Hr Ho He).
Qed.

Lemma open_w_locked path g w :
  files w !! path = Some g → writable g = false →
  open_w path w = (inl PermissionError, w).
Proof. intros Hg Hw. unfold open_w. by rewrite Hg, Hw. Qed.

Lemma open_w_no_create path w :
  files w !! path = None → cwd_writable w = false →
  open_w path w = (inl PermissionError, w).
Proof. intros Hg Hw. unfold open_w. by rewrite Hg, Hw. Qed.

End Frame.

(** X7. A run changes nothing but the destination: every other path, the
    source file among them, holds after the run what it held before, and the
    working directory's permission and the line separator are as before. *)
Theorem main_touches_only_destination (w : world) (path : string) :
  path ≠ out_path →
  files (main w).2 !! path = files w !! path ∧
  files (main w).2 !! file_path = files w !! file_path ∧
  cwd_writable (main w).2 = cwd_writable w ∧
  linesep (main w).2 = linesep w.
Proof.
  intros Hne. destruct (main_world w) as [-> | [f ->]]; [done |].
  unfold set_file. simpl. rewrite !lookup_insert_ne; [done | | done].
  apply paths_differ.
Qed.

Lemma main_touches_only_destination_witness :
  file_path ≠ out_path ∧
  files (main (world_with (lit "a 50% b"))).2 !! file_path
  = files (world_with (lit "a 50% b")) !! file_path.
Proof.
  assert (file_path ≠ out_path) as Hne by discriminate.
  split; [exact Hne |].
  exact (proj1 (main_touches_only_destination
                  (world_with (lit "a 50% b")) file_path Hne)).
Defined.

(** X8. When the source loads but the destination cannot be opened for
    writing (it exists and is not writable, or it is missing and the working
    directory admits no new file), the run ends with [PermissionError] and
    the host is exactly as before: an earlier report is not emptied. *)
Theorem locked_destination_aborts (w : world) (content : pystr) :
  (read_text file_path w).1 = inr content →
  (∃ g, files w !! out_path = Some g ∧ writable g = false) ∨
  (files w !! out_path = None ∧ cwd_writable w = false) →
  main w = (inl PermissionError, w).
Proof.
  intros Hr Hlock. apply (main_open_error w content); [done |].
  destruct Hlock as [(g & Hg & Hw) | [Hg Hw]].
  - by rewrite (open_w_locked _ _ _ Hg Hw).
  - by rewrite (open_w_no_create _ _ Hg Hw).
Qed.

Lemma locked_destination_aborts_witness :
  (read_text file_path (world_with_locked_report (lit "a 50% b"))).1
  = inr (lit "a 50% b") ∧
  main (world_with_locked_report (lit "a 50% b"))
  = (inl PermissionError, world_with_locked_report (lit "a 50% b")).
Proof.
  assert ((read_text file_path (world_with_locked_report (lit "a 50% b"))).1
          = inr (lit "a 50% b")) as Hr by reflexivity.
  split; [exact Hr |].
  apply (locked_destination_aborts _ _ Hr).
  left. exists (File true false (bytes_of (lit "old report"))).
  split; reflexivity.
Defined.

(** ** The UTF-8 codec *)

Section Utf8.

Implicit Types c : char.
Implicit Types s : pystr.
Implicit Types bs rest : list byte.

Local Open Scope N_scope.

(** A value below 256 is the value of its byte. *)
Lemma to_N_octet n : n < 256 → Byte.to_N (octet n) = n.
Proof.
  intros Hn. unfold octet. rewrite N.mod_small by done.
  destruct (Byte.of_N n) as [b |] eqn:E.
  - by apply Byte.to_of_N.
  - apply Byte.of_N_None_iff in E. lia.
Qed.

Lemma mod_offset k b q : q < b → (k * b + q) mod b = q.
Proof.
  intros Hq. rewrite N.add_comm, N.Div0.mod_add. by apply N.mod_small.
Qed.

Lemma is_cont_octet r : r < 64 → is_cont (octet (0x80 + r)) = true.
Proof.
  intros Hr. unfold is_cont. rewrite to_N_octet by lia. cbv zeta.
  apply andb_true_iff. split; [apply N.leb_le | apply N.ltb_lt]; lia.
Qed.

Lemma low6_octet r : r < 64 → low6 (octet (0x80 + r)) = r.
Proof.
  intros Hr. unfold low6. rewrite to_N_octet by lia.
  change 0x80 with (2 * 64). by apply mod_offset.
Qed.

Lemma decode_1 n rest :
  n < 0x80 → utf8_decode (octet n :: rest) = cons n <$> utf8_decode rest.
Proof.
  intros Hn. cbn [utf8_decode]. rewrite to_N_octet by lia. cbv zeta.
  by rewrite (proj2 (N.ltb_lt n 0x80) Hn).
Qed.

Lemma scalar_from_true lo cp :
  lo ≤ cp → cp ≤ 0x10FFFF → cp < 0xD800 ∨ 0xDFFF < cp →
  scalar_from lo cp = true.
Proof.
  intros Hlo Hhi Hsur. unfold scalar_from.
  rewrite (proj2 (N.leb_le lo cp) Hlo), (proj2 (N.leb_le cp 0x10FFFF) Hhi).
  cbn [andb]. destruct Hsur as [Hs | Hs].
  - by rewrite (proj2 (N.leb_gt 0xD800 cp) Hs).
  - rewrite (proj2 (N.leb_gt cp 0xDFFF) Hs). by rewrite andb_false_r.
Qed.

Lemma decode_2 q r0 rest :
  2 ≤ q → q < 32 → r0 < 64 →
  utf8_decode (octet (0xC0 + q) :: octet (0x80 + r0) :: rest)
  = cons (q * 64 + r0) <$> utf8_decode rest.
Proof.
  intros Hq2 Hq Hr0. cbn [utf8_decode].
  rewrite (to_N_octet (0xC0 + q)) by lia. cbv zeta.
  rewrite (proj2 (N.ltb_ge (0xC0 + q) 0x80)) by lia.
  rewrite (proj2 (N.leb_le 0xC0 (0xC0 + q))) by lia.
  rewrite (proj2 (N.ltb_lt (0xC0 + q) 0xE0)) by lia.
  cbn [andb]. rewrite low6_octet, is_cont_octet by done.
  change 0xC0 with (6 * 32). rewrite mod_offset by done.
  by rewrite scalar_from_true by lia.
Qed.

Lemma decode_3 q r1 r0 rest :
  q < 16 → r1 < 64 → r0 < 64 →
  0x800 ≤ (q * 64 + r1) * 64 + r0 →
  (q * 64 + r1) * 64 + r0 < 0xD800 ∨ 0xDFFF < (q * 64 + r1) * 64 + r0 →
  utf8_decode (octet (0xE0 + q) :: octet (0x80 + r1) :: octet (0x80 + r0)
                 :: rest)
  = cons ((q * 64 + r1) * 64 + r0) <$> utf8_decode rest.
Proof.
  intros Hq Hr1 Hr0 Hlo Hsur. cbn [utf8_decode].
  rewrite (to_N_octet (0xE0 + q)) by lia. cbv zeta.
  rewrite (proj2 (N.ltb_ge (0xE0 + q) 0x80)) by lia.
  rewrite (proj2 (N.leb_le 0xC0 (0xE0 + q))) by lia.
  rewrite (proj2 (N.ltb_ge (0xE0 + q) 0xE0)) by lia.
  rewrite (proj2 (N.leb_le 0xE0 (0xE0 + q))) by lia.
  rewrite (proj2 (N.ltb_lt (0xE0 + q) 0xF0)) by lia.
  cbn [andb]. rewrite !low6_octet, !is_cont_octet by done.
  change 0xE0 with (14 * 16). rewrite mod_offset by done.
  by rewrite scalar_from_true by lia.
Qed.

Lemma decode_4 q r2 r1 r0 rest :
  q < 8 → r2 < 64 → r1 < 64 → r0 < 64 →
  0x10000 ≤ ((q * 64 + r2) * 64 + r1) * 64 + r0 →
  ((q * 64 + r2) * 64 + r1) * 64 + r0 ≤ 0x10FFFF →
  utf8_decode (octet (0xF0 + q) :: octet (0x80 + r2) :: octet (0x80 + r1)
                 :: octet (0x80 + r0) :: rest)
  = cons (((q * 64 + r2) * 64 + r1) * 64 + r0) <$> utf8_decode rest.
Proof.
  intros Hq Hr2 Hr1 Hr0 Hlo Hhi. cbn [utf8_decode].
  rewrite (to_N_octet (0xF0 + q)) by lia. cbv zeta.
  rewrite (proj2 (N.ltb_ge (0xF0 + q) 0x80)) by lia.
  rewrite (proj2 (N.leb_le 0xC0 (0xF0 + q))) by lia.
  rewrite (proj2 (N.ltb_ge (0xF0 + q) 0xE0)) by lia.
  rewrite (proj2 (N.leb_le 0xE0 (0xF0 + q))) by lia.
  rewrite (proj2 (N.ltb_ge (0xF0 + q) 0xF0)) by lia.
  rewrite (proj2 (N.leb_le 0xF0 (0xF0 + q))) by lia.
  rewrite (proj2 (N.ltb_lt (0xF0 + q) 0xF8)) by lia.
  cbn [andb]. rewrite !low6_octet, !is_cont_octet by done.
  change 0xF0 with (30 * 8). rewrite mod_offset by done.
  by rewrite scalar_from_true by lia.
Qed.

(** The last digit of a number in base 64 and the digits before it. *)
Lemma base64_digits c :
  ∃ q r, c / 64 = q ∧ c mod 64 = r ∧ c = q * 64 + r ∧ r < 64.
Proof.
  exists (c / 64), (c mod 64). split; [done |]. split; [done |].
  split; [| by apply N.mod_lt]. rewrite N.mul_comm. apply N.div_mod'.
Qed.

(** Decoding the UTF-8 form of a character gives the character back. *)
Lemma utf8_decode_char c bs rest :
  utf8_char c = Some bs →
  utf8_decode (bs ++ rest) = cons c <$> utf8_decode rest.
Proof.
  unfold utf8_char. intros H.
  destruct (base64_digits c) as (q0 & r0 & Dq0 & Dr0 & E0 & B0).
  destruct (base64_digits q0) as (q1 & r1 & Dq1 & Dr1 & E1 & B1).
  destruct (base64_digits q1) as (q2 & r2 & Dq2 & Dr2 & E2 & B2).
  change 262144 with (64 * 64 * 64) in H. change 4096 with (64 * 64) in H.
  rewrite <- !N.Div0.div_div in H.
  rewrite ?Dq0, ?Dr0, ?Dq1, ?Dr1, ?Dq2, ?Dr2 in H.
  destruct (N.ltb_spec c 0x80) as [H1 | H1].
  { injection H as <-. by apply decode_1. }
  destruct (N.ltb_spec c 0x800) as [H2 | H2].
  { injection H as <-. cbn [app].
    rewrite decode_2 by lia. by rewrite <- E0. }
  destruct (N.ltb_spec c 0x10000) as [H3 | H3].
  { destruct (N.leb_spec 0xD800 c) as [Ha | Ha];
      [destruct (N.leb_spec c 0xDFFF) as [Hb | Hb]; [done |] |];
      cbn [andb] in H; injection H as <-; cbn [app];
      rewrite decode_3 by lia; by rewrite <- E1, <- E0. }
  destruct (N.leb_spec c 0x10FFFF) as [H4 | H4]; [| done].
  injection H as <-. cbn [app].
  rewrite decode_4 by lia. by rewrite <- E2, <- E1, <- E0.
Qed.

Lemma utf8_decode_encode s bs :
  utf8_encode s = Some bs → utf8_decode bs = Some s.
Proof.
  revert bs. induction s as [| c s IH]; intros bs H; simpl in H.
  - by injection H as <-.
  - destruct (utf8_char c) as [bc |] eqn:Ec; [| done].
    destruct (utf8_encode s) as [br |] eqn:Es; [| done].
    injection H as <-. rewrite (utf8_decode_char c bc br Ec).
    by rewrite (IH br eq_refl).
Qed.
(** The characters that have a UTF-8 form are the scalar values. *)
Lemma utf8_char_scalar c : is_Some (utf8_char c) ↔ scalar c = true.
Proof.
  unfold utf8_char, scalar, scalar_from.
  rewrite (proj2 (N.leb_le 0 c) (N.le_0_l c)).
  destruct (N.ltb_spec c 0x80); destruct (N.ltb_spec c 0x800);
    destruct (N.ltb_spec c 0x10000); destruct (N.leb_spec c 0x10FFFF);
    destruct (N.leb_spec 0xD800 c); destruct (N.leb_spec c 0xDFFF);
    try lia; cbn [andb negb]; split; intros Hx;
    first [done | by eexists | by destruct Hx].
Qed.

Lemma utf8_encode_scalar s :
  is_Some (utf8_encode s) ↔ Forall (fun c => scalar c = true) s.
Proof.
  induction s as [| c s IH]; cbn [utf8_encode].
  - split; intros _; [constructor | by eexists].
  - rewrite Forall_cons, <- IH, <- utf8_char_scalar.
    destruct (utf8_char c) as [bc |]; destruct (utf8_encode s) as [br |].
    + split; intros _; [split; by eexists | by eexists].
    + split; [intros [? ?] | intros [_ [? ?]]]; done.
    + split; [intros [? ?] | intros [[? ?] _]]; done.
    + split; [intros [? ?] | intros [[? ?] _]]; done.
Qed.

End Utf8.

(** X9. UTF-8 round trip: whenever a text encodes, decoding the bytes gives
    the text back; and a text encodes exactly when all its characters are
    scalar values (at most U+10FFFF, no surrogate). *)
Theorem utf8_round_trip (s : pystr) :
  (∀ bs, utf8_encode s = Some bs → utf8_decode bs = Some s) ∧
  (is_Some (utf8_encode s) ↔ Forall (fun c => scalar c = true) s).
Proof.
  split; [intros bs; apply utf8_decode_encode | apply utf8_encode_scalar].
Qed.

Lemma utf8_round_trip_witness :
  utf8_encode (concat search_terms)
  = Some (bytes_of (concat search_terms)) ∧
  utf8_decode (bytes_of (concat search_terms)) = Some (concat search_terms).
Proof.
  assert (utf8_encode (concat search_terms)
          = Some (bytes_of (concat search_terms))) as He by reflexivity.
  split; [exact He |].
  exact (proj1 (utf8_round_trip (concat search_terms)) _ He).
Defined.

(** ** Newlines, and what the characters of the report are *)

Section Texts.

Implicit Types s content term snippet sep : pystr.
Implicit Types terms bs : list pystr.
Implicit Types P : char → Prop.

Lemma universal_newlines_lf s :
  universal_newlines (10%N :: s) = 10%N :: universal_newlines s.
Proof. reflexivity. Qed.

Lemma universal_newlines_crlf s :
  universal_newlines (13%N :: 10%N :: s) = 10%N :: universal_newlines s.
Proof. reflexivity. Qed.

Lemma universal_newlines_other c s :
  c ≠ 13%N → universal_newlines (c :: s) = c :: universal_newlines s.
Proof.
  intros Hc. cbn [universal_newlines]. by destruct (N.eqb_spec c 13).
Qed.

(** What is read holds the characters of the file and the newline. *)
Lemma universal_newlines_Forall P s :
  P 10%N → Forall P s → Forall P (universal_newlines s).
Proof.
  intros Hnl.
  assert (∀ n s, (length s ≤ n)%nat → Forall P s →
                 Forall P (universal_newlines s)) as Hfuel.
  { clear s. induction n as [| n IH]; intros s Hn Hs.
    - destruct s; [constructor | simpl in Hn; lia].
    - destruct s as [| c r]; [constructor |].
      apply Forall_cons in Hs as [Hc Hr]. simpl in Hn.
      cbn [universal_newlines]. destruct (N.eqb_spec c 13).
      + destruct r as [| c' r']; [by repeat constructor |].
        apply Forall_cons in Hr as [Hc' Hr']. simpl in Hn.
        destruct (N.eqb_spec c' 10); constructor; try done.
        * apply IH; [lia | done].
        * apply IH; [simpl; lia | by constructor].
      + constructor; [done |]. apply IH; [lia | done]. }
  by apply (Hfuel (length s)).
Qed.

(** What is read holds no carriage return. *)
Lemma universal_newlines_no_cr s :
  Forall (fun c => c ≠ 13%N) (universal_newlines s).
Proof.
  assert (∀ n s, (length s ≤ n)%nat →
                 Forall (fun c => c ≠ 13%N) (universal_newlines s)) as Hfuel.
  { clear s. induction n as [| n IH]; intros s Hn.
    - destruct s; [constructor | simpl in Hn; lia].
    - destruct s as [| c r]; [constructor |]. simpl in Hn.
      cbn [universal_newlines]. destruct (N.eqb_spec c 13).
      + destruct r as [| c' r']; [by repeat constructor |]. simpl in Hn.
        destruct (N.eqb_spec c' 10); constructor; try done.
        * apply IH. lia.
        * apply IH. simpl. lia.
      + constructor; [done |]. apply IH. lia. }
  by apply (Hfuel (length s)).
Qed.

Lemma translate_newlines_cons sep c s :
  translate_newlines sep (c :: s)
  = (if (c =? 10)%N then sep else [c]) ++ translate_newlines sep s.
Proof. reflexivity. Qed.

Lemma translate_newlines_Forall P sep s :
  Forall P sep → Forall P s → Forall P (translate_newlines sep s).
Proof.
  intros Hsep Hs. induction Hs as [| c s Hc Hs IH]; [constructor |].
  rewrite translate_newlines_cons. apply Forall_app. split; [| done].
  destruct (c =? 10)%N; [done | by constructor].
Qed.

(** Reading undoes the newline translation of writing. *)
Lemma universal_translate sep s :
  os_linesep sep → Forall (fun c => c ≠ 13%N) s →
  universal_newlines (translate_newlines sep s) = s.
Proof.
  intros Hsep Hs. induction Hs as [| c s Hc Hs IH]; [done |].
  rewrite translate_newlines_cons. destruct (N.eqb_spec c 10) as [-> | Hne].
  - destruct Hsep as [-> | ->]; cbn [app].
    + by rewrite universal_newlines_lf, IH.
    + by rewrite universal_newlines_crlf, IH.
  - cbn [app]. by rewrite universal_newlines_other, IH.
Qed.

Lemma slice_Forall P s start stop :
  Forall P s → Forall P (slice s start stop).
Proof. intros Hs. unfold slice. by apply Forall_take, Forall_drop. Qed.

Lemma fmt_Forall P term snippet :
  Forall P (nl ++ header []) → Forall P term → Forall P snippet →
  Forall P (fmt term snippet).
Proof.
  intros Hfix Ht Hs. unfold header in Hfix.
  apply Forall_app in Hfix as [Hnl Hfix].
  apply Forall_app in Hfix as [H1 H2]. apply Forall_app in H2 as [_ H2].
  unfold fmt, header. repeat (apply Forall_app; split); done.
Qed.

Lemma search_Forall P content terms :
  Forall P (nl ++ header []) → Forall (Forall P) terms → Forall P content →
  Forall (Forall P) (search content terms).
Proof.
  intros Hfix Hts Hc. induction Hts as [| t terms Ht Hts IH]; [constructor |].
  rewrite search_cons. apply Forall_app. split; [| done].
  destruct (occurs_dec content t) as [Ho | Ho].
  - rewrite search_single_found by done. constructor; [| constructor].
    unfold block_of, snippet_at. apply fmt_Forall; [done | done |].
    by apply slice_Forall.
  - rewrite search_single_absent by done. constructor.
Qed.

Lemma join_Forall P sep bs :
  Forall P sep → Forall (Forall P) bs → Forall P (join sep bs).
Proof.
  intros Hsep Hbs. induction Hbs as [| b bs Hb Hbs IH]; [constructor |].
  destruct bs as [| b1 bs]; [done |].
  change (join sep (b :: b1 :: bs)) with (b ++ sep ++ join sep (b1 :: bs)).
  repeat (apply Forall_app; split); done.
Qed.

(** The report holds characters of the content, of the terms and of the
    fixed text of the blocks only. *)
Lemma report_Forall P content terms :
  Forall P (nl ++ header []) → Forall (Forall P) terms → Forall P content →
  Forall P (report content terms).
Proof.
  intros Hfix Hts Hc. unfold report. apply join_Forall.
  - by apply Forall_app in Hfix as [Hnl _].
  - by apply search_Forall.
Qed.

End Texts.

(** ** What a run can end with *)

Section Outcomes.

Implicit Types w : world.
Implicit Types s content : pystr.

Lemma scalar_from_scalar lo cp : scalar_from lo cp = true → scalar cp = true.
Proof.
  unfold scalar, scalar_from. intros H.
  apply andb_true_iff in H as [H Hs]. apply andb_true_iff in H as [_ Hhi].
  by rewrite (proj2 (N.leb_le 0 cp) (N.le_0_l cp)), Hhi, Hs.
Qed.

Lemma scalar_ascii n : (n < 0x80)%N → scalar n = true.
Proof.
  intros Hn. apply (scalar_from_scalar 0). unfold scalar_from.
  rewrite (proj2 (N.leb_le 0 n)) by lia.
  rewrite (proj2 (N.leb_le n 0x10FFFF)) by lia.
  by rewrite (proj2 (N.leb_gt 0xD800 n)) by lia.
Qed.

(** Strict decoding yields scalar values only. *)
Lemma utf8_decode_scalar bs s :
  utf8_decode bs = Some s → Forall (fun c => scalar c = true) s.
Proof.
  assert (∀ n bs s, (length bs ≤ n)%nat → utf8_decode bs = Some s →
                    Forall (fun c => scalar c = true) s) as Hfuel.
  { clear bs s. induction n as [| n IH]; intros bs s Hn H.
    - destruct bs; [| simpl in Hn; lia]. injection H as <-. constructor.
    - destruct bs as [| b r]; [injection H as <-; constructor |].
      simpl in Hn. cbn [utf8_decode] in H. cbv zeta in H.
      destruct (N.ltb_spec (Byte.to_N b) 0x80) as [H1 | H1].
      { apply fmap_Some in H as (s' & Hs' & ->).
        constructor; [by apply scalar_ascii | apply (IH r); [lia | done]]. }
      destruct ((0xC0 <=? Byte.to_N b)%N && (Byte.to_N b <? 0xE0)%N).
      { destruct r as [| b1 r1]; [done |].
        destruct (is_cont b1 && scalar_from _ _) eqn:E; [| done].
        apply andb_true_iff in E as [_ E].
        apply fmap_Some in H as (s' & Hs' & ->).
        constructor; [by apply scalar_from_scalar in E |].
        apply (IH r1); [simpl in Hn; lia | done]. }
      destruct ((0xE0 <=? Byte.to_N b)%N && (Byte.to_N b <? 0xF0)%N).
      { destruct r as [| b1 [| b2 r2]]; [done | done |].
        destruct (is_cont b1 && is_cont b2 && scalar_from _ _) eqn:E;
          [| done].
        apply andb_true_iff in E as [_ E].
        apply fmap_Some in H as (s' & Hs' & ->).
        constructor; [by apply scalar_from_scalar in E |].
        apply (IH r2); [simpl in Hn; lia | done]. }
      destruct ((0xF0 <=? Byte.to_N b)%N && (Byte.to_N b <? 0xF8)%N);
        [| done].
      destruct r as [| b1 [| b2 [| b3 r3]]]; [done | done | done |].
      destruct (is_cont b1 && is_cont b2 && is_cont b3 && scalar_from _ _)
        eqn:E; [| done].
      apply andb_true_iff in E as [_ E].
      apply fmap_Some in H as (s' & Hs' & ->).
      constructor; [by apply scalar_from_scalar in E |].
      apply (IH r3); [simpl in Hn; lia | done]. }
  by apply (Hfuel (length bs)).
Qed.

(** A successful read gives the decoded bytes with newlines made uniform. *)
Lemma read_text_ok_inv path w content :
  (read_text path w).1 = inr content →
  ∃ f s, files w !! path = Some f ∧ readable f = true ∧
         utf8_decode (data f) = Some s ∧ content = universal_newlines s.
Proof.
  unfold read_text. destruct (files w !! path) as [f |]; [| done].
  destruct (readable f) eqn:Hr; [| done].
  destruct (utf8_decode (data f)) as [s |] eqn:Hd; [| done].
  simpl. intros [= <-]. by exists f, s.
Qed.

Lemma read_text_ok path w f s :
  files w !! path = Some f → readable f = true →
  utf8_decode (data f) = Some s →
  read_text path w = (inr (universal_newlines s), w).
Proof. intros Hf Hr Hd. unfold read_text. by rewrite Hf, Hr, Hd. Qed.

(** The content a run works on holds scalar values and no carriage
    return. *)
Lemma content_clean path w content :
  (read_text path w).1 = inr content →
  Forall (fun c => scalar c = true) content ∧
  Forall (fun c => c ≠ 13%N) content.
Proof.
  intros H. apply read_text_ok_inv in H as (f & s & _ & _ & Hd & ->).
  split; [| apply universal_newlines_no_cr].
  apply universal_newlines_Forall; [done |]. by apply utf8_decode_scalar in Hd.
Qed.

(** When the destination opens. *)
Lemma open_w_ok_iff path w :
  (∃ f, (open_w path w).1 = inr f) ↔
  (∃ g, files w !! path = Some g ∧ writable g = true) ∨
  (files w !! path = None ∧ cwd_writable w = true).
Proof.
  unfold open_w. destruct (files w !! path) as [g |].
  - destruct (writable g) eqn:Hw; simpl.
    + split; [intros _; left; by exists g | intros _; by eexists].
    + split; [by intros [? ?] | intros [(g' & [= <-] & ?) | [? _]]; congruence].
  - destruct (cwd_writable w); simpl.
    + split; [intros _; by right | intros _; by eexists].
    + split; [by intros [? ?] | intros [(g' & ? & _) | [_ ?]]; done].
Qed.

(** The permission to read of the file that [open(path, 'w')] hands over. *)
Lemma open_w_readable path w f :
  (open_w path w).1 = inr f →
  readable f = match files w !! path with
               | Some g => readable g
               | None => true
               end.
Proof.
  unfold open_w. destruct (files w !! path) as [g |].
  - destruct (writable g); simpl; [| done]. by intros [= <-].
  - destruct (cwd_writable w); simpl; [| done]. by intros [= <-].
Qed.

Lemma os_linesep_clean sep :
  os_linesep sep → Forall (fun c => scalar c = true) sep.
Proof. intros [-> | ->]; by repeat constructor. Qed.

(** The report of a content that was read always encodes. *)
Lemma report_encodes w content :
  os_linesep (linesep w) →
  (read_text file_path w).1 = inr content →
  is_Some (utf8_encode
             (translate_newlines (linesep w) (report content search_terms))).
Proof.
  intros Hsep Hr. apply utf8_encode_scalar.
  apply translate_newlines_Forall; [by apply os_linesep_clean |].
  apply report_Forall.
  - apply (bool_decide_unpack _). by vm_compute.
  - apply (bool_decide_unpack _). by vm_compute.
  - by apply content_clean in Hr as [Hs _].
Qed.

End Outcomes.

(** X10. Newline round trip: text without a carriage return, written with
    the line separator of POSIX or of Windows, reads back unchanged under
    universal newlines; and whatever is read holds no carriage return. *)
Theorem newline_round_trip (sep s : pystr) :
  os_linesep sep → Forall (fun c => c ≠ 13%N) s →
  universal_newlines (translate_newlines sep s) = s ∧
  (∀ raw, Forall (fun c => c ≠ 13%N) (universal_newlines raw)).
Proof.
  intros Hsep Hs. split; [by apply universal_translate |].
  apply universal_newlines_no_cr.
Qed.

Lemma newline_round_trip_witness :
  os_linesep [13%N; 10%N] ∧
  Forall (fun c => c ≠ 13%N) [97%N; 10%N; 98%N] ∧
  translate_newlines [13%N; 10%N] [97%N; 10%N; 98%N]
  = [97%N; 13%N; 10%N; 98%N] ∧
  universal_newlines (translate_newlines [13%N; 10%N] [97%N; 10%N; 98%N])
  = [97%N; 10%N; 98%N].
Proof.
  assert (os_linesep [13%N; 10%N]) as Hsep by (by right).
  assert (Forall (fun c => c ≠ 13%N) [97%N; 10%N; 98%N]) as Hs
    by (repeat constructor; discriminate).
  split; [exact Hsep |]. split; [exact Hs |]. split; [reflexivity |].
  exact (proj1 (newline_round_trip _ _ Hsep Hs)).
Defined.

(** X11. On a host with the line separator of POSIX or of Windows, a run
    never ends with [UnicodeEncodeError]: what was decoded from the source
    always encodes. The run succeeds exactly when the source file exists, is
    readable and decodes, and the destination exists and is writable or is
    missing where a file can be created. *)
Theorem run_outcomes (w : world) :
  os_linesep (linesep w) →
  (main w).1 ≠ inl UnicodeEncodeError ∧
  ((main w).1 = inr tt ↔
   (∃ f s, files w !! file_path = Some f ∧ readable f = true ∧
           utf8_decode (data f) = Some s) ∧
   ((∃ g, files w !! out_path = Some g ∧ writable g = true) ∨
    (files w !! out_path = None ∧ cwd_writable w = true))).
Proof.
  intros Hsep. split.
  - destruct ((read_text file_path w).1) as [e | content] eqn:Hr.
    { rewrite (main_load_error _ _ Hr). simpl. intros [= ->].
      unfold read_text in Hr. destruct (files w !! file_path) as [f |];
        [| done]. destruct (readable f); [| done].
      by destruct (utf8_decode (data f)). }
    destruct ((open_w out_path w).1) as [e | f] eqn:Ho.
    { rewrite (main_open_error _ _ _ Hr Ho). simpl. intros [= ->].
      unfold open_w in Ho. destruct (files w !! out_path) as [g |].
      - by destruct (writable g).
      - by destruct (cwd_writable w). }
    destruct (report_encodes w content Hsep Hr) as [bs He].
    by rewrite (main_writes _ _ _ _ Hr Ho He).
  - split.
    + intros H. apply main_success_inv in H as (c & f & bs & Hr & Ho & _ & _).
      apply read_text_ok_inv in Hr as (g & s & Hg & Hgr & Hd & _).
      split; [by exists g, s |]. apply open_w_ok_iff. by exists f.
    + intros [(g & s & Hg & Hgr & Hd) Hopen].
      apply open_w_ok_iff in Hopen as [f Ho].
      assert ((read_text file_path w).1 = inr (universal_newlines s)) as Hr
        by (by rewrite (read_text_ok _ _ _ _ Hg Hgr Hd)).
      destruct (report_encodes w _ Hsep Hr) as [bs He].
      by rewrite (main_writes _ _ _ _ Hr Ho He).
Qed.

Lemma run_outcomes_witness :
  os_linesep (linesep (windows_world_with (lit "a 50% b"))) ∧
  (main (windows_world_with (lit "a 50% b"))).1 ≠ inl UnicodeEncodeError.
Proof.
  assert (os_linesep (linesep (windows_world_with (lit "a 50% b")))) as Hsep
    by (by right).
  split; [exact Hsep |].
  exact (proj1 (run_outcomes (windows_world_with (lit "a 50% b")) Hsep)).
Defined.

(** X12. After a successful run whose destination is readable (it was
    missing, or it was there and readable), reading the destination back as
    text gives exactly the report that was written: the characters survive
    the encoding and the newline translation of the host. *)
Theorem report_reads_back (w : world) (content : pystr) :
  os_linesep (linesep w) →
  (read_text file_path w).1 = inr content →
  (main w).1 = inr tt →
  (∀ g, files w !! out_path = Some g → readable g = true) →
  read_text out_path (main w).2
  = (inr (report content search_terms), (main w).2).
Proof.
  intros Hsep Hr Hok Hread.
  apply main_success_inv in Hok as (c & f & bs & Hr' & Ho & He & Hm).
  rewrite Hr in Hr'. injection Hr' as <-. rewrite Hm. simpl.
  assert (readable f = true) as Hf.
  { rewrite (open_w_readable _ _ _ Ho).
    destruct (files w !! out_path) as [g |] eqn:Hg; [by apply Hread | done]. }
  apply utf8_decode_encode in He.
  rewrite (read_text_ok out_path _
             (File (readable f) (writable f) bs)
             (translate_newlines (linesep w) (report content search_terms)));
    [| unfold set_file; simpl; by rewrite lookup_insert_eq | done | done].
  rewrite universal_translate; [done | done |].
  apply report_Forall.
  - apply (bool_decide_unpack _). by vm_compute.
  - apply (bool_decide_unpack _). by vm_compute.
  - by apply content_clean in Hr as [_ Hcr].
Qed.

Lemma report_reads_back_witness :
  os_linesep (linesep (windows_world_with (lit "50% and 40%"))) ∧
  (main (windows_world_with (lit "50% and 40%"))).1 = inr tt ∧
  read_text out_path (main (windows_world_with (lit "50% and 40%"))).2
  = (inr (report (lit "50% and 40%") search_terms),
     (main (windows_world_with (lit "50% and 40%"))).2).
Proof.
  assert (os_linesep (linesep (windows_world_with (lit "50% and 40%"))))
    as Hsep by (by right).
  assert ((main (windows_world_with (lit "50% and 40%"))).1 = inr tt) as Hok
    by (vm_compute; reflexivity).
  split; [exact Hsep |]. split; [exact Hok |].
  apply (report_reads_back _ (lit "50% and 40%") Hsep);
    [vm_compute; reflexivity | exact Hok |].
  intros g Hg. vm_compute in Hg. discriminate Hg.
Defined.

(** X13. A content of fewer than two characters, the empty file above all,
    matches no term of [search_terms]; when the destination opens, the run
    succeeds and leaves an empty destination file. *)
Theorem short_content_empty_report (w : world) (content : pystr) (f : file) :
  (read_text file_path w).1 = inr content → len content < 2 →
  (open_w out_path w).1 = inr f →
  search content search_terms = [] ∧
  main w = (inr tt, set_file out_path (File (readable f) (writable f) []) w).
Proof.
  intros Hr Hlen Ho.
  assert (search content search_terms = []) as Hs.
  { assert (Forall (fun t => 2 ≤ len t) search_terms) as Hlong
      by (repeat constructor; by vm_compute).
    induction Hlong as [| t terms Ht Hlong IH]; [done |].
    rewrite search_cons, IH, app_nil_r. apply search_single_absent.
    intros [i Hi]. apply occurs_at_range in Hi. lia. }
  split; [done |]. apply (main_writes w content f []); [done | done |].
  unfold report. by rewrite Hs.
Qed.

Lemma short_content_empty_report_witness :
  (read_text file_path (world_with [])).1 = inr [] ∧ len [] < 2 ∧
  main (world_with [])
  = (inr tt, set_file out_path (File true true []) (world_with [])).
Proof.
  assert ((read_text file_path (world_with [])).1 = inr []) as Hr
    by reflexivity.
  assert (len [] < 2) as Hlen by (vm_compute; reflexivity).
  split; [exact Hr |]. split; [exact Hlen |].
  exact (proj2 (short_content_empty_report (world_with []) []
                  (File true true []) Hr Hlen eq_refl)).
Defined.
